(** * ReguFlash: the study-session engine of the flashcard application

    A shallow embedding of [types.ts], [utils/storage.ts], the state and the
    event handlers of [App.tsx] and the import path of
    [components/Editor.tsx], followed by the properties of the session
    engine: view filter, cursor, mutation reconciliation, import
    normalisation, shuffle and reset.

    Conventions.
    - JavaScript numbers that hold indices and lengths are integers: [Z],
      with [%] as the truncating remainder [Z.rem].
    - [undefined] in an optional field of a typed [Card] is [None].
    - React state is one record; a [setX] call is a record update.
    - [localStorage] is part of the state, as the handlers write to it.
    - [setTimeout] callbacks are kept in a queue of pending timers and run
      by an event of their own ([fireTimer]). *)

From Stdlib Require Import ZArith QArith Lia Permutation.
From stdpp Require Import base list strings pretty gmap.

Set Warnings "-register-all".

(** ** types.ts *)

Inductive Proficiency : Type := new | known | unknown.

Global Instance Proficiency_eq_dec : EqDecision Proficiency.
Proof. solve_decision. Defined.

Record Card : Type := mkCard {
  id : string;
  category : string;
  question : string;
  answer : string;
  details : option (list string);
  tags : option (list string);
  proficiency : option Proficiency
}.

Global Instance Card_eq_dec : EqDecision Card.
Proof. solve_decision. Defined.

Inductive ViewMode : Type := mode_study | mode_list | mode_editor.

(** The filter of [App]: ['all' | 'new' | 'unknown' | 'known']. *)
Inductive FilterMode : Type := filter_all | filter_only (p : Proficiency).

Global Instance FilterMode_eq_dec : EqDecision FilterMode.
Proof. solve_decision. Defined.

(** [{ ...c, proficiency }] *)
Definition withProficiency (p : Proficiency) (c : Card) : Card :=
  {| id := id c; category := category c; question := question c;
     answer := answer c; details := details c; tags := tags c;
     proficiency := Some p |}.

(** ** utils/storage.ts *)

(** What the key [reguflash_data_v1] holds: the text written by
    [JSON.stringify(cards)], or a text that [JSON.parse] rejects. *)
Inductive StoredText : Type :=
  | Serialized (cs : list Card)
  | Corrupt.

(** [localStorage]: the entry under [STORAGE_KEY], and whether [setItem]
    throws (quota exceeded). *)
Record Storage : Type := mkStorage {
  entry : option StoredText;
  full : bool
}.

Definition setItem (t : StoredText) (st : Storage) : option Storage :=
  if full st then None else Some {| entry := Some t; full := full st |}.

Definition removeItem (st : Storage) : Storage :=
  {| entry := None; full := full st |}.

(** [saveCards]: the exception of [setItem] is caught and logged. *)
Definition saveCards (cs : list Card) (st : Storage) : Storage :=
  match setItem (Serialized cs) st with
  | Some st' => st'
  | None => st
  end.

(** [loadCards]: the stored cards, or [INITIAL_DATA] when the entry is
    absent or does not parse. [INITIAL_DATA] is declared in [constants.ts];
    it is a parameter here. The variant of [storage.ts] without seed data is
    the instance [INITIAL_DATA := []]. *)
Definition loadCards (INITIAL_DATA : list Card) (st : Storage) : list Card :=
  match entry st with
  | Some (Serialized cs) => cs
  | Some Corrupt => INITIAL_DATA
  | None => INITIAL_DATA
  end.

Definition resetData (INITIAL_DATA : list Card) (st : Storage)
  : list Card * Storage :=
  (INITIAL_DATA, removeItem st).

(** ** App.tsx: state *)

(** A callback scheduled by [setTimeout] in [handleNext] or [handlePrev];
    it captures [displayCards.length] of the render that scheduled it. *)
Inductive Timer : Type :=
  | TimerNext (len : Z)
  | TimerPrev (len : Z).

Record AppState : Type := mkApp {
  cards : list Card;
  currentIndex : Z;
  isFlipped : bool;
  mode : ViewMode;
  filterMode : FilterMode;
  selectedTag : string;
  editingCard : option Card;
  timers : list Timer;
  localStorage : Storage
}.

Definition setCards (v : list Card) (s : AppState) : AppState :=
  mkApp v (currentIndex s) (isFlipped s) (mode s) (filterMode s)
        (selectedTag s) (editingCard s) (timers s) (localStorage s).
Definition setCurrentIndex (v : Z) (s : AppState) : AppState :=
  mkApp (cards s) v (isFlipped s) (mode s) (filterMode s)
        (selectedTag s) (editingCard s) (timers s) (localStorage s).
Definition setIsFlipped (v : bool) (s : AppState) : AppState :=
  mkApp (cards s) (currentIndex s) v (mode s) (filterMode s)
        (selectedTag s) (editingCard s) (timers s) (localStorage s).
Definition setMode (v : ViewMode) (s : AppState) : AppState :=
  mkApp (cards s) (currentIndex s) (isFlipped s) v (filterMode s)
        (selectedTag s) (editingCard s) (timers s) (localStorage s).
Definition setFilterMode (v : FilterMode) (s : AppState) : AppState :=
  mkApp (cards s) (currentIndex s) (isFlipped s) (mode s) v
        (selectedTag s) (editingCard s) (timers s) (localStorage s).
Definition setSelectedTag (v : string) (s : AppState) : AppState :=
  mkApp (cards s) (currentIndex s) (isFlipped s) (mode s) (filterMode s)
        v (editingCard s) (timers s) (localStorage s).
Definition setEditingCard (v : option Card) (s : AppState) : AppState :=
  mkApp (cards s) (currentIndex s) (isFlipped s) (mode s) (filterMode s)
        (selectedTag s) v (timers s) (localStorage s).
Definition setTimers (v : list Timer) (s : AppState) : AppState :=
  mkApp (cards s) (currentIndex s) (isFlipped s) (mode s) (filterMode s)
        (selectedTag s) (editingCard s) v (localStorage s).
Definition setLocalStorage (v : Storage) (s : AppState) : AppState :=
  mkApp (cards s) (currentIndex s) (isFlipped s) (mode s) (filterMode s)
        (selectedTag s) (editingCard s) (timers s) v.

(** [saveCards(cs)] as an effect on the state. *)
Definition save (cs : list Card) (s : AppState) : AppState :=
  setLocalStorage (saveCards cs (localStorage s)) s.

(** The state after mounting: the [useState] defaults, then the effect
    that loads the cards. *)
Definition mount (INITIAL_DATA : list Card) (st : Storage) : AppState :=
  mkApp (loadCards INITIAL_DATA st) 0 false mode_study filter_all ""
        None [] st.

(** ** App.tsx: the view filter *)

(** [!c.proficiency || c.proficiency === 'new'] *)
Definition isNew (c : Card) : bool :=
  match proficiency c with
  | None => true
  | Some p => bool_decide (p = new)
  end.

(** [c.proficiency === filterMode] *)
Definition hasProficiency (p : Proficiency) (c : Card) : bool :=
  bool_decide (proficiency c = Some p).

(** [c.tags?.includes(selectedTag)], as a condition *)
Definition hasTag (t : string) (c : Card) : bool :=
  match tags c with
  | None => false
  | Some ts => bool_decide (t ∈ ts)
  end.

(** Truthiness of a string: [if (selectedTag)] *)
Definition truthy (t : string) : bool := negb (bool_decide (t = "")).

Definition visible (cs : list Card) (fm : FilterMode) (tag : string)
  : list Card :=
  let filtered := cs in
  let filtered :=
    match fm with
    | filter_only new => List.filter isNew filtered
    | filter_only p => List.filter (hasProficiency p) filtered
    | filter_all => filtered
    end in
  let filtered :=
    if truthy tag then List.filter (hasTag tag) filtered else filtered in
  filtered.

Definition displayCards (s : AppState) : list Card :=
  visible (cards s) (filterMode s) (selectedTag s).

(** ** App.tsx: the cursor *)

Local Open Scope Z_scope.

Definition len {A} (l : list A) : Z := Z.of_nat (length l).

(** [a[i]] for an integer [i]: [undefined] out of range. *)
Definition at_index {A} (l : list A) (i : Z) : option A :=
  if bool_decide (0 ≤ i) then l !! Z.to_nat i else None.

Definition effectiveIndex (s : AppState) : Z :=
  Z.min (currentIndex s) (Z.max 0 (len (displayCards s) - 1)).

Definition currentCard (s : AppState) : option Card :=
  at_index (displayCards s) (effectiveIndex s).

(** The state updater passed to [setCurrentIndex] by a timer. *)
Definition updater (t : Timer) (prev : Z) : Z :=
  match t with
  | TimerNext n =>
      let base := if bool_decide (prev >= n) then 0 else prev in
      Z.rem (base + 1) n
  | TimerPrev n =>
      let base := if bool_decide (prev >= n) then 0 else prev in
      Z.rem (base - 1 + n) n
  end.

Definition setTimeout (t : Timer) (s : AppState) : AppState :=
  setTimers (timers s ++ [t]) s.

(** The oldest pending timer fires. *)
Definition fireTimer (s : AppState) : AppState :=
  match timers s with
  | [] => s
  | t :: ts => setCurrentIndex (updater t (currentIndex s)) (setTimers ts s)
  end.

(** All pending timers fire, oldest first. *)
Definition settle (s : AppState) : AppState :=
  Nat.iter (length (timers s)) fireTimer s.

(** The effect on [[filterMode, selectedTag]]: it runs after a render in
    which one of the two changed. *)
Definition filterEffect (old : AppState) (s : AppState) : AppState :=
  if bool_decide (filterMode old = filterMode s ∧
                  selectedTag old = selectedTag s)
  then s
  else setIsFlipped false (setCurrentIndex 0 s).

(** ** App.tsx: the handlers *)

(** [handleNext] with the [displayCards.length] its closure captured. *)
Definition handleNextWith (n : Z) (s : AppState) : AppState :=
  if bool_decide (n = 0) then s
  else setTimeout (TimerNext n) (setIsFlipped false s).

Definition handleNext (s : AppState) : AppState :=
  handleNextWith (len (displayCards s)) s.

Definition handlePrev (s : AppState) : AppState :=
  let n := len (displayCards s) in
  if bool_decide (n = 0) then s
  else setTimeout (TimerPrev n) (setIsFlipped false s).

Definition sameId (a b : Card) : bool := bool_decide (id a = id b).

Definition willStayVisible (p : Proficiency) (cur : Card) (s : AppState)
  : bool :=
  let matchesProficiency :=
    bool_decide (filterMode s = filter_all)
    || bool_decide (filterMode s = filter_only p) in
  let matchesTag :=
    negb (truthy (selectedTag s)) || hasTag (selectedTag s) cur in
  matchesProficiency && matchesTag.

(** The guard [if (!currentCard) return] comes before every read of a
    property of [currentCard], here and in [handleDeleteCard]: the match
    on [currentCard] renders both. *)
Definition handleMark (p : Proficiency) (s : AppState) : AppState :=
  match currentCard s with
  | None => s
  | Some cur =>
      let updatedCards :=
        map (fun c => if sameId c cur then withProficiency p c else c)
            (cards s) in
      let s1 := save updatedCards (setCards updatedCards s) in
      if willStayVisible p cur s then
        handleNextWith (len (displayCards s)) s1
      else
        let s2 :=
          if bool_decide (len (displayCards s) > 0)
             && bool_decide (effectiveIndex s >= len (displayCards s) - 1)
          then setCurrentIndex (Z.max 0 (len (displayCards s) - 2)) s1
          else s1 in
        setIsFlipped false s2
  end.

(** [confirm] is the answer to [window.confirm]. *)
Definition handleDeleteCard (confirm : bool) (s : AppState) : AppState :=
  match currentCard s with
  | None => s
  | Some cur =>
      if confirm then
        let newCards := List.filter (fun c => negb (sameId c cur)) (cards s) in
        let s1 := save newCards (setCards newCards s) in
        let s2 :=
          if bool_decide (effectiveIndex s >= len (displayCards s) - 1)
          then setCurrentIndex (Z.max 0 (len (displayCards s) - 2)) s1
          else s1 in
        setIsFlipped false s2
      else s
  end.

Definition handleEditCard (s : AppState) : AppState :=
  match currentCard s with
  | Some cur => setEditingCard (Some cur) s
  | None => s
  end.

Definition handleUpdateCard (updatedCard : Card) (s : AppState) : AppState :=
  let newCards :=
    map (fun c => if sameId c updatedCard then updatedCard else c) (cards s) in
  setEditingCard None (save newCards (setCards newCards s)).

Definition handleSaveData (newCards : list Card) (s : AppState) : AppState :=
  filterEffect s
    (setFilterMode filter_all
       (setMode mode_study
          (setIsFlipped false
             (setCurrentIndex 0 (save newCards (setCards newCards s)))))).

Definition handleAppendData (newCards : list Card) (s : AppState) : AppState :=
  let merged := cards s ++ newCards in
  save merged (setCards merged s).

Definition handleReset (INITIAL_DATA : list Card) (confirm : bool)
    (s : AppState) : AppState :=
  if confirm then
    let '(defaultData, st) := resetData INITIAL_DATA (localStorage s) in
    filterEffect s
      (setSelectedTag ""
         (setFilterMode filter_all
            (setIsFlipped false
               (setCurrentIndex 0
                  (setCards defaultData (setLocalStorage st s))))))
  else s.

(** The filter buttons and the tag selector. *)
Definition changeFilterMode (fm : FilterMode) (s : AppState) : AppState :=
  filterEffect s (setFilterMode fm s).

Definition changeSelectedTag (t : string) (s : AppState) : AppState :=
  filterEffect s (setSelectedTag t s).

(** The "clear filters" button of the empty view. *)
Definition clearFilters (s : AppState) : AppState :=
  filterEffect s (setSelectedTag "" (setFilterMode filter_all s)).

(** Space, Enter and the flip button. *)
Definition flip (s : AppState) : AppState :=
  setIsFlipped (negb (isFlipped s)) s.

(** ** App.tsx: shuffle *)

(** [[...cards].sort(() => Math.random() - 0.5)]. The comparator ignores
    its arguments: the result of its [k]-th call is [rand k - 0.5], where
    [rand k] is the [k]-th number drawn from [Math.random()]. *)
Definition comparefn (rand : nat → Q) (k : nat) : Q := (rand k - (1 # 2))%Q.

Definition positive (q : Q) : bool := bool_decide (0 < Qnum q).

(** [Array.prototype.sort] belongs to the engine, not to the repository.
    A straight insertion sort stands in for it: each element [tmp] moves
    left past the elements [y] with [comparefn(y, tmp) > 0]. The sorted
    prefix is kept reversed, its last element first; [k] counts the calls
    of the comparator. What is proved of shuffle below rests only on the
    sort moving elements around; what is refuted is refuted for every
    sort ([no_sort_shuffles_three_uniformly]). *)
Fixpoint insertLeft {A} (rand : nat → Q) (k : nat) (tmp : A)
    (prefix : list A) : list A * nat :=
  match prefix with
  | [] => ([tmp], k)
  | y :: rest =>
      if positive (comparefn rand k) then
        let '(r, k') := insertLeft rand (S k) tmp rest in (y :: r, k')
      else (tmp :: y :: rest, S k)
  end.

Definition sort {A} (rand : nat → Q) (a : list A) : list A :=
  rev (fold_left (fun acc tmp => insertLeft rand acc.2 tmp acc.1) a
                 ([], 0%nat)).1.

Definition handleShuffle (rand : nat → Q) (s : AppState) : AppState :=
  let s1 := setIsFlipped false s in
  let shuffled := sort rand (cards s1) in
  setCurrentIndex 0 (setCards shuffled s1).

(** ** The session as a state machine *)

Inductive Event : Type :=
  | Next
  | Prev
  | Flip
  | TimerFires
  | FilterChange (fm : FilterMode)
  | TagChange (t : string)
  | ClearFilters
  | Mark (p : Proficiency)
  | Delete (confirm : bool)
  | Edit
  | Update (updatedCard : Card)
  | Shuffle (rand : nat → Q)
  | SaveData (newCards : list Card)
  | AppendData (newCards : list Card)
  | Reset (confirm : bool).

Definition step (INITIAL_DATA : list Card) (e : Event) (s : AppState)
  : AppState :=
  match e with
  | Next => handleNext s
  | Prev => handlePrev s
  | Flip => flip s
  | TimerFires => fireTimer s
  | FilterChange fm => changeFilterMode fm s
  | TagChange t => changeSelectedTag t s
  | ClearFilters => clearFilters s
  | Mark p => handleMark p s
  | Delete confirm => handleDeleteCard confirm s
  | Edit => handleEditCard s
  | Update c => handleUpdateCard c s
  | Shuffle rand => handleShuffle rand s
  | SaveData cs => handleSaveData cs s
  | AppendData cs => handleAppendData cs s
  | Reset confirm => handleReset INITIAL_DATA confirm s
  end.

Definition run (INITIAL_DATA : list Card) (es : list Event) (s : AppState)
  : AppState :=
  fold_left (fun s e => step INITIAL_DATA e s) es s.

(** [next()] and [prev()] of the session cursor: the handler, then its
    timer. *)
Definition next (s : AppState) : AppState := settle (handleNext s).
Definition prev (s : AppState) : AppState := settle (handlePrev s).

(** ** Sample data *)

Definition sampleCard (i : string) (ts : option (list string))
    (p : option Proficiency) : Card :=
  mkCard i "General" ("Question " +:+ i) ("Answer " +:+ i) None ts p.

Definition cardA : Card := sampleCard "A" None (Some new).
Definition cardB : Card := sampleCard "B" None (Some new).
Definition cardC : Card := sampleCard "C" None (Some new).

(** A study session over [cs] with the given filter and cursor. *)
Definition studying (cs : list Card) (fm : FilterMode) (tag : string)
    (i : Z) : AppState :=
  mkApp cs i false mode_study fm tag None []
        (mkStorage (Some (Serialized cs)) false).

(** ** components/Editor.tsx: import of cards *)

(** The values [JSON.parse] returns, and [undefined] for what an object
    does not have. *)
Inductive value : Type :=
  | VUndefined
  | VNull
  | VBool (b : bool)
  | VNum (q : Q)
  | VStr (s : string)
  | VArr (a : list value)
  | VObj (o : gmap string value).

(** Truthiness: [x || y], [x && y] and [if (x)] branch on it. *)
Definition toBoolean (v : value) : bool :=
  match v with
  | VUndefined | VNull => false
  | VBool b => b
  | VNum q => negb (bool_decide (Qnum q = 0))
  | VStr s => truthy s
  | VArr _ | VObj _ => true
  end.

(** [v.k] for the keys the import reads ([question], [answer], [id],
    [proficiency], [tags], none of them a built-in property) and a [v]
    that is neither [null] nor [undefined]. *)
Definition prop (k : string) (v : value) : value :=
  match v with
  | VObj o => default VUndefined (o !! k)
  | _ => VUndefined
  end.

Definition isArray (v : value) : bool :=
  match v with VArr _ => true | _ => false end.

Inductive Exn : Type :=
  | SyntaxError (message : string)
  | TypeError (message : string)
  | Error (message : string).

Definition message (e : Exn) : string :=
  match e with SyntaxError m | TypeError m | Error m => m end.

(** [item => item.question && item.answer], as the condition [every]
    tests. Reading a property of [null] or [undefined] throws. *)
Definition hasQuestionAndAnswer (item : value) : Exn + bool :=
  match item with
  | VUndefined =>
      inl (TypeError "Cannot read properties of undefined (reading 'question')")
  | VNull =>
      inl (TypeError "Cannot read properties of null (reading 'question')")
  | _ => inr (toBoolean (prop "question" item)
              && toBoolean (prop "answer" item))
  end.

(** [parsed.every(...)]: stops at the first item that fails. *)
Fixpoint every (items : list value) : Exn + bool :=
  match items with
  | [] => inr true
  | item :: rest =>
      match hasQuestionAndAnswer item with
      | inl e => inl e
      | inr true => every rest
      | inr false => inr false
      end
  end.

(** The own properties [{ ...item }] copies. Only objects get past the
    validation. *)
Definition spread (item : value) : gmap string value :=
  match item with
  | VObj o => o
  | _ => ∅
  end.

Record EditorState : Type := mkEditor {
  jsonText : string;
  error : option string;
  successMsg : option string;
  showAppendModal : bool;
  appendText : string;
  appendError : option string;
  idsDrawn : nat
}.

Section Editor.

(** [JSON.parse], the library function. *)
Variable JSON_parse : string → Exn + value.

(** [generateId()]: [fresh k] is the identifier of its [k]-th call
    ([crypto.randomUUID()], or the time stamp and random suffix). *)
Variable fresh : nat → string.

(** The callback of [parsed.map]; [k] counts the calls of
    [generateId]. *)
Definition normalize (k : nat) (item : value) : value * nat :=
  let '(i, k') :=
    if toBoolean (prop "id" item) then (prop "id" item, k)
    else (VStr (fresh k), S k) in
  let p :=
    if toBoolean (prop "proficiency" item) then prop "proficiency" item
    else VStr "new" in
  let t := if isArray (prop "tags" item) then prop "tags" item
           else VUndefined in
  (VObj (<["tags" := t]> (<["proficiency" := p]> (<["id" := i]>
     (spread item)))), k').

Fixpoint normalizeAll (k : nat) (items : list value) : list value * nat :=
  match items with
  | [] => ([], k)
  | item :: rest =>
      let '(c, k1) := normalize k item in
      let '(cs, k2) := normalizeAll k1 rest in
      (c :: cs, k2)
  end.

Definition parseAndValidate (text : string) (k : nat)
  : Exn + (list value * nat) :=
  match JSON_parse text with
  | inl e => inl e
  | inr (VArr parsed) =>
      match every parsed with
      | inl e => inl e
      | inr false => inl (Error "Each card must have a question and answer.")
      | inr true => inr (normalizeAll k parsed)
      end
  | inr _ => inl (Error "Data must be an array")
  end.

(** [showSuccess]; the timer that hides the message again is left out. *)
Definition showSuccess (msg : string) (ed : EditorState) : EditorState :=
  mkEditor (jsonText ed) None (Some msg) (showAppendModal ed)
           (appendText ed) (appendError ed) (idsDrawn ed).

Definition setIdsDrawn (k : nat) (ed : EditorState) : EditorState :=
  mkEditor (jsonText ed) (error ed) (successMsg ed) (showAppendModal ed)
           (appendText ed) (appendError ed) k.

(** The component is generic in what its callbacks [onSave] and
    [onAppend] do to the state [App] of its parent. *)
Context {App : Type}.
Variable onSave : list value → App → App.
Variable onAppend : list value → App → App.

Definition handleSave (ed : EditorState) (app : App) : EditorState * App :=
  match parseAndValidate (jsonText ed) (idsDrawn ed) with
  | inr (data, k) =>
      (showSuccess "Data replaced successfully!" (setIdsDrawn k ed),
       onSave data app)
  | inl e =>
      (mkEditor (jsonText ed) (Some (message e)) None (showAppendModal ed)
                (appendText ed) (appendError ed) (idsDrawn ed),
       app)
  end.

Definition handleAppendSubmit (ed : EditorState) (app : App)
  : EditorState * App :=
  match parseAndValidate (appendText ed) (idsDrawn ed) with
  | inr (data, k) =>
      (showSuccess
         ("Successfully appended " +:+ pretty (length data)
          +:+ " new cards!")
         (mkEditor (jsonText ed) (error ed) (successMsg ed) false ""
                   None k),
       onAppend data app)
  | inl e =>
      (mkEditor (jsonText ed) (error ed) (successMsg ed)
                (showAppendModal ed) (appendText ed) (Some (message e))
                (idsDrawn ed),
       app)
  end.

End Editor.

(** An imported object seen through the [Card] interface, which is how
    [App] reads what [parseAndValidate] declares to be [Card[]]. It is
    exact on objects that follow the interface. *)
Definition asString (v : value) : string :=
  match v with VStr s => s | _ => "" end.

Definition asStrings (v : value) : option (list string) :=
  match v with VArr a => Some (map asString a) | _ => None end.

Definition asProficiency (v : value) : option Proficiency :=
  match v with
  | VStr s =>
      if bool_decide (s = "new") then Some new
      else if bool_decide (s = "known") then Some known
      else if bool_decide (s = "unknown") then Some unknown
      else None
  | _ => None
  end.

Definition asCard (v : value) : Card :=
  mkCard (asString (prop "id" v)) (asString (prop "category" v))
         (asString (prop "question" v)) (asString (prop "answer" v))
         (asStrings (prop "details" v)) (asStrings (prop "tags" v))
         (asProficiency (prop "proficiency" v)).

(** [<Editor onSave={handleSaveData} onAppend={handleAppendData} />] *)
Definition editorSave (JSON_parse : string → Exn + value)
    (fresh : nat → string) (ed : EditorState) (s : AppState)
  : EditorState * AppState :=
  handleSave JSON_parse fresh
    (fun data => handleSaveData (map asCard data)) ed s.

Definition editorAppend (JSON_parse : string → Exn + value)
    (fresh : nat → string) (ed : EditorState) (s : AppState)
  : EditorState * AppState :=
  handleAppendSubmit JSON_parse fresh
    (fun data => handleAppendData (map asCard data)) ed s.

(** ** The view filter in the words of the specification *)

(** The tag filter of the specification is a string or none; [App] keeps
    it as a string, the empty string standing for none. *)
Definition tagFilter (selectedTag : string) : option string :=
  if truthy selectedTag then Some selectedTag else None.

(** Stage 1: with [new], absent or [new]; with [known] or [unknown], the
    exact match; with [all], everything. *)
Definition proficiencyStage (pf : FilterMode) (c : Card) : bool :=
  match pf with
  | filter_all => true
  | filter_only new =>
      bool_decide (proficiency c = None ∨ proficiency c = Some new)
  | filter_only p => bool_decide (proficiency c = Some p)
  end.

(** Stage 2: with a tag filter set, the cards whose tags contain it. *)
Definition tagStage (tf : option string) (c : Card) : bool :=
  match tf with
  | None => true
  | Some t =>
      match tags c with
      | Some ts => bool_decide (t ∈ ts)
      | None => false
      end
  end.

Definition keeps (pf : FilterMode) (tf : option string) (c : Card) : bool :=
  proficiencyStage pf c && tagStage tf c.

(** ** The cursor invariant *)

Definition timerLen (t : Timer) : Z :=
  match t with TimerNext n | TimerPrev n => n end.

(** The raw index never goes below zero, and a timer is only scheduled
    over a view that has cards. *)
Definition cursorInv (s : AppState) : Prop :=
  0 ≤ currentIndex s ∧ Forall (fun t => 0 < timerLen t) (timers s).

(** ** More sample data *)

Definition store3 : Storage :=
  mkStorage (Some (Serialized [cardA; cardB; cardC])) false.

Definition taggedA : Card := sampleCard "A" (Some ["t"]) (Some new).
Definition taggedB : Card := sampleCard "B" (Some ["t"]) (Some new).
Definition taggedC : Card := sampleCard "C" (Some ["t"]) (Some new).
(** [taggedC] after its tag was removed in the edit form. *)
Definition untaggedC : Card := sampleCard "C" None (Some new).

Definition taggedStore : Storage :=
  mkStorage (Some (Serialized [taggedA; taggedB; taggedC])) false.

(** The third card of a view filtered by tag is shown, then loses its
    tag in the edit form: the raw index now points past the view. *)
Definition afterUntagging : AppState :=
  run [] [TagChange "t"; Next; TimerFires; Next; TimerFires; Edit;
          Update untaggedC]
      (mount [] taggedStore).

(** ** The distribution of shuffle *)

(** The comparator is positive exactly when [Math.random()] is above one
    half, a fair coin. [draws bs] is a sequence of draws that is above
    one half at the calls where [bs] says so. *)
Definition draws (bs : list bool) (k : nat) : Q :=
  if nth k bs false then 3 # 4 else 1 # 4.

(** All sequences of [n] coin flips; each is as likely as any other. *)
Fixpoint coins (n : nat) : list (list bool) :=
  match n with
  | O => [[]]
  | S m => flat_map (fun bs => [true :: bs; false :: bs]) (coins m)
  end.



(** The same count for any way [f] of turning [K] comparator outcomes
    into an order, that is, for any sort the engine may run. *)
Definition frequencyOf (K : nat) (f : list bool → list Card)
    (order : list Card) : nat :=
  length (List.filter (fun o => bool_decide (o = order)) (map f (coins K))).

(** ** Events and the store *)

(** The events that change the collection in the state [s] and save it:
    update, replace and append always, mark and a confirmed delete when
    a card is on display. *)
Definition savesCollection (e : Event) (s : AppState) : bool :=
  match e with
  | Mark _ | Delete true => bool_decide (is_Some (currentCard s))
  | Update _ | SaveData _ | AppendData _ => true
  | _ => false
  end.

(** The events whose handlers call [saveCards] or [resetData]. *)
Definition touchesStorage (e : Event) : bool :=
  match e with
  | Mark _ | Delete _ | Update _ | SaveData _ | AppendData _ | Reset _ => true
  | _ => false
  end.

(** ** Imports in the words of the specification *)

(** An item lacks a question or an answer: one of the two is absent or
    empty. *)
Definition lacks (item : value) : bool :=
  negb (toBoolean (prop "question" item) && toBoolean (prop "answer" item)).


(** ** Sample imports *)

(** The double quote of JSON texts. *)
Definition dq : string := String (Ascii.ascii_of_nat 34) EmptyString.

Definition jsonField (k v : string) : string :=
  dq +:+ k +:+ dq +:+ ":" +:+ dq +:+ v +:+ dq.

(** One card of the import format, with the id [i] and no tags. *)
Definition jsonCard (i : string) : string :=
  "{" +:+ jsonField "id" i +:+ "," +:+ jsonField "question" "q" +:+ ","
  +:+ jsonField "answer" "a" +:+ "}".

Definition parsedCard (i : string) : value :=
  VObj (<["id" := VStr i]> (<["question" := VStr "q"]>
         (<["answer" := VStr "a"]> ∅))).

(** Two cards that carry the same id. *)
Definition twinsText : string :=
  "[" +:+ jsonCard "x" +:+ "," +:+ jsonCard "x" +:+ "]".

(** A card without id whose tags are the empty sequence. *)
Definition emptyTagsText : string :=
  "[{" +:+ jsonField "question" "q" +:+ "," +:+ jsonField "answer" "a"
  +:+ "," +:+ dq +:+ "tags" +:+ dq +:+ ":[]}]".

Definition parsedEmptyTags : value :=
  VObj (<["question" := VStr "q"]> (<["answer" := VStr "a"]>
         (<["tags" := VArr []]> ∅))).

(** A card with the id [x], then a card without id. *)
Definition mixedText : string :=
  "[" +:+ jsonCard "x" +:+ ",{" +:+ jsonField "question" "q" +:+ ","
  +:+ jsonField "answer" "a" +:+ "}]".

Definition parsedNoId : value :=
  VObj (<["question" := VStr "q"]> (<["answer" := VStr "a"]> ∅)).

(** [JSON.parse] on the sample texts. *)
Definition sampleParse (text : string) : Exn + value :=
  if bool_decide (text = twinsText) then
    inr (VArr [parsedCard "x"; parsedCard "x"])
  else if bool_decide (text = mixedText) then
    inr (VArr [parsedCard "x"; parsedNoId])
  else if bool_decide (text = emptyTagsText) then
    inr (VArr [parsedEmptyTags])
  else if bool_decide (text = "[{}]") then inr (VArr [VObj ∅])
  else if bool_decide (text = "[null]") then inr (VArr [VNull])
  else if bool_decide (text = "{}") then inr (VObj ∅)
  else inl (SyntaxError "Unexpected token").

Definition sampleFresh (k : nat) : string := "id-" +:+ pretty k.

Definition sampleEditor (text : string) : EditorState :=
  mkEditor text None None true text None 0.

(** * The rest of the application

    The tag index, the keyboard and the screens of [App.tsx], the edit
    form of [components/EditCardModal.tsx] and the status cell of
    [components/CardList.tsx]. *)

From Stdlib Require OrdersEx.
From stdpp Require sorting.

(** ** App.tsx: the tag index *)

(** The default order of [Array.prototype.sort]: strings by their code
    units. The characters of the model are the code units below 256. *)
Definition codeUnitOrder (a b : string) : Prop := String.leb a b.

(** [tags.add(tag)] for every tag of every card that has tags. *)
Definition tagSet (cs : list Card) : gset string :=
  foldl (fun acc card =>
           match tags card with
           | Some ts => foldl (fun acc tag => {[tag]} ∪ acc) acc ts
           | None => acc
           end) ∅ cs.

(** [Array.from(tags).sort()]. The elements of a set are distinct, so
    the sorted array is the same whatever order the set lists them in
    and whatever sort the engine runs. *)
Definition uniqueTags (cs : list Card) : list string :=
  sorting.merge_sort codeUnitOrder (elements (tagSet cs)).

(** ** App.tsx: keyboard navigation *)

Global Instance ViewMode_eq_dec : EqDecision ViewMode.
Proof. solve_decision. Defined.

(** [handleKeyDown], with [e.key] as its argument. *)
Definition handleKeyDown (key : string) (s : AppState) : AppState :=
  if negb (bool_decide (mode s = mode_study))
     || bool_decide (is_Some (editingCard s))
  then s
  else
    let s1 := if bool_decide (key = "ArrowRight") then handleNext s else s in
    let s2 := if bool_decide (key = "ArrowLeft") then handlePrev s1 else s1 in
    if bool_decide (key = " ") || bool_decide (key = "Enter") then flip s2
    else s2.

(** ** Presses of the navigation buttons *)

Inductive Nav : Type := NavNext | NavPrev.

(** The timer a press schedules. *)
Definition timerOf (n : Z) (nav : Nav) : Timer :=
  match nav with NavNext => TimerNext n | NavPrev => TimerPrev n end.

(** The handler of a press, and the press followed by its timer. *)
Definition press (s : AppState) (nav : Nav) : AppState :=
  match nav with NavNext => handleNext s | NavPrev => handlePrev s end.

Definition move (s : AppState) (nav : Nav) : AppState :=
  match nav with NavNext => next s | NavPrev => prev s end.

(** How far a sequence of presses moves the cursor: one forward for each
    next, one back for each prev. *)
Definition stepOf (nav : Nav) : Z :=
  match nav with NavNext => 1 | NavPrev => -1 end.

Fixpoint offset (navs : list Nav) : Z :=
  match navs with
  | [] => 0
  | nav :: rest => stepOf nav + offset rest
  end.

(** ** Kinds of events *)

Definition isShuffle (e : Event) : bool :=
  match e with Shuffle _ => true | _ => false end.

(** The events that leave the tags of the collection alone. *)
Definition keepsTags (e : Event) : bool :=
  match e with
  | Delete _ | Update _ | SaveData _ | AppendData _ | Reset _ => false
  | _ => true
  end.

(** The events that bring cards from outside into the collection. *)
Definition bringsCards (e : Event) : bool :=
  match e with
  | SaveData _ | AppendData _ | Reset _ => true
  | _ => false
  end.

(** The store accepts writes, and what a reload of the page would show
    is what is in memory. *)
Definition reloadShows (INITIAL_DATA : list Card) (s : AppState) : Prop :=
  full (localStorage s) = false
  ∧ loadCards INITIAL_DATA (localStorage s) = cards s.

(** ** components/EditCardModal.tsx *)

(** The white space [trim] removes, among the code units below 256: tab,
    line feed, vertical tab, form feed, carriage return, space and
    no-break space. *)
Definition isWhiteSpace (a : Ascii.ascii) : bool :=
  bool_decide (Ascii.nat_of_ascii a ∈ [9; 10; 11; 12; 13; 32; 160]%nat).

Fixpoint trimStart (s : string) : string :=
  match s with
  | EmptyString => EmptyString
  | String a s' => if isWhiteSpace a then trimStart s' else s
  end.

Fixpoint trimEnd (s : string) : string :=
  match s with
  | EmptyString => EmptyString
  | String a s' =>
      match trimEnd s' with
      | EmptyString =>
          if isWhiteSpace a then EmptyString else String a EmptyString
      | t => String a t
      end
  end.

Definition trim (s : string) : string := trimEnd (trimStart s).

(** [s.split(sep)] for a separator of one character: the pieces between
    the separators, at least one. *)
Fixpoint split (sep : Ascii.ascii) (s : string) : list string :=
  match s with
  | EmptyString => [EmptyString]
  | String a s' =>
      if Ascii.eqb a sep then EmptyString :: split sep s'
      else
        match split sep s' with
        | piece :: rest => String a piece :: rest
        | [] => [String a EmptyString]
        end
  end.

(** [a.join(sep)] *)
Fixpoint join (sep : string) (l : list string) : string :=
  match l with
  | [] => EmptyString
  | [x] => x
  | x :: rest => x +:+ sep +:+ join sep rest
  end.

Definition lineFeed : Ascii.ascii := Ascii.ascii_of_nat 10.
Definition comma : Ascii.ascii := Ascii.ascii_of_nat 44.

(** [text.split(sep).map(x => x.trim()).filter(x => x.length > 0)] *)
Definition splitTrim (sep : Ascii.ascii) (text : string) : list string :=
  List.filter (fun x => bool_decide (0 < String.length x)%nat)
              (map trim (split sep text)).

(** [a.length > 0 ? a : undefined] *)
Definition orUndefined (a : list string) : option (list string) :=
  if bool_decide (0 < length a)%nat then Some a else None.

(** Whether the character occurs in the string. *)
Fixpoint occurs (a : Ascii.ascii) (s : string) : bool :=
  match s with
  | EmptyString => false
  | String b s' => Ascii.eqb b a || occurs a s'
  end.

(** A piece that [split(sep)], [trim] and the filter hand back as it
    is: not empty, no white space at either end, no separator inside. *)
Definition cleanPiece (sep : Ascii.ascii) (x : string) : bool :=
  bool_decide (0 < String.length x)%nat
  && bool_decide (trim x = x)
  && negb (occurs sep x).

(** An optional list of such pieces that is absent rather than empty. *)
Definition cleanField (sep : Ascii.ascii) (o : option (list string)) : bool :=
  match o with
  | None => true
  | Some l => bool_decide (0 < length l)%nat && forallb (cleanPiece sep) l
  end.

Module EditCardModal.

Record State : Type := mkState {
  formData : Card;
  detailsText : string;
  tagsText : string
}.

(** The initial state and the effect on [[card]]. *)
Definition open (card : Card) : State :=
  mkState card
    (match details card with
     | Some d => join (String lineFeed EmptyString) d
     | None => EmptyString
     end)
    (match tags card with
     | Some ts => join ", " ts
     | None => EmptyString
     end).

(** [handleChange] for the inputs named [category], [question] and
    [answer], the ones that have a name. *)
Definition handleChange (name value : string) (m : State) : State :=
  let c := formData m in
  let c' :=
    if bool_decide (name = "category") then
      mkCard (id c) value (question c) (answer c) (details c) (tags c)
             (proficiency c)
    else if bool_decide (name = "question") then
      mkCard (id c) (category c) value (answer c) (details c) (tags c)
             (proficiency c)
    else if bool_decide (name = "answer") then
      mkCard (id c) (category c) (question c) value (details c) (tags c)
             (proficiency c)
    else c in
  mkState c' (detailsText m) (tagsText m).

Definition setDetailsText (v : string) (m : State) : State :=
  mkState (formData m) v (tagsText m).

Definition setTagsText (v : string) (m : State) : State :=
  mkState (formData m) (detailsText m) v.

(** [handleSave]: the card handed to [onSave]. *)
Definition handleSave (m : State) : Card :=
  let detailsArray := splitTrim lineFeed (detailsText m) in
  let tagsArray := splitTrim comma (tagsText m) in
  let c := formData m in
  mkCard (id c) (category c) (question c) (answer c)
         (orUndefined detailsArray) (orUndefined tagsArray) (proficiency c).

Definition toggleTag (tag : string) (m : State) : State :=
  let currentTags := splitTrim comma (tagsText m) in
  let newTags :=
    if bool_decide (tag ∈ currentTags)
    then List.filter (fun t => negb (bool_decide (t = tag))) currentTags
    else currentTags ++ [tag] in
  setTagsText (join ", " newTags) m.

(** [activeTagsSet.has(tag)]: the badge of a quick-select tag is shown
    active. *)
Definition isActive (tag : string) (m : State) : bool :=
  bool_decide (tag ∈ map trim (split comma (tagsText m))).

(** The inputs that carry a name, and so the keys [handleChange] can
    write. *)
Inductive Input : Type := input_category | input_question | input_answer.

Definition nameOf (i : Input) : string :=
  match i with
  | input_category => "category"
  | input_question => "question"
  | input_answer => "answer"
  end.

(** What can be done in the form before it is saved. *)
Inductive Action : Type :=
  | Change (i : Input) (value : string)
  | Details (value : string)
  | Tags (value : string)
  | Toggle (tag : string).

Definition act (m : State) (a : Action) : State :=
  match a with
  | Change i v => handleChange (nameOf i) v m
  | Details v => setDetailsText v m
  | Tags v => setTagsText v m
  | Toggle tag => toggleTag tag m
  end.

End EditCardModal.

(** ** The edit form in [App]: [handleEditCard], the form, [onSave] *)

(** The current card is opened in the form, [edit] acts on the form, and
    the form is saved. Nothing happens without a current card. *)
Definition editAndSave (edit : EditCardModal.State → EditCardModal.State)
    (s : AppState) : AppState :=
  let s1 := handleEditCard s in
  match editingCard s1 with
  | Some card =>
      handleUpdateCard (EditCardModal.handleSave (edit (EditCardModal.open card)))
                       s1
  | None => s1
  end.

(** ** App.tsx: what [main] renders *)

(** The editor; the notice that there are no cards; the card on display
    with the counter [Card position of total]; the notice that no card
    matches the filter, with the button that clears the filters; the
    list. [Flashcard] is handed [currentCard] as it is. *)
Inductive Screen : Type :=
  | EditorScreen
  | NoCardsScreen
  | CardScreen (card : option Card) (flipped : bool) (position total : Z)
  | NoMatchScreen
  | ListScreen (cs : list Card).

Definition screen (s : AppState) : Screen :=
  match mode s with
  | mode_editor => EditorScreen
  | m =>
      if bool_decide (len (cards s) = 0) then NoCardsScreen
      else
        match m with
        | mode_study =>
            if bool_decide (len (displayCards s) > 0)
            then CardScreen (currentCard s) (isFlipped s)
                            (effectiveIndex s + 1) (len (displayCards s))
            else NoMatchScreen
        | _ => ListScreen (cards s)
        end
  end.

(** ** components/CardList.tsx *)

Inductive StatusIcon : Type := IconCheck | IconAlert | IconCircle.

(** The icons of the status cell of a row, one condition each. *)
Definition statusIcons (c : Card) : list StatusIcon :=
  (if bool_decide (proficiency c = Some known) then [IconCheck] else [])
  ++ (if bool_decide (proficiency c = Some unknown) then [IconAlert] else [])
  ++ (if isNew c then [IconCircle] else []).

(** ** Sample cards for the edit form *)

Definition notedCard : Card :=
  mkCard "N" "General" "Question N" "Answer N"
         (Some ["first point"; "second point"]) (Some ["t"; "hard"])
         (Some unknown).

(** * Properties *)

(** ** Lists *)

Lemma filter_filter_andb {A} (f g : A → bool) (l : list A) :
  List.filter g (List.filter f l) = List.filter (fun x => f x && g x) l.
Proof.
  induction l as [|x l IH]; simpl; [done|].
  destruct (f x); simpl; [destruct (g x)|]; by rewrite IH.
Qed.

Lemma filter_sublist {A} (f : A → bool) (l : list A) :
  List.filter f l `sublist_of` l.
Proof.
  induction l as [|x l IH]; simpl; [constructor|].
  destruct (f x); by constructor.
Qed.

Lemma elem_of_filter_bool {A} (f : A → bool) (l : list A) (x : A) :
  x ∈ List.filter f l ↔ x ∈ l ∧ f x = true.
Proof. rewrite !list_elem_of_In. apply filter_In. Qed.


Lemma len_nonneg {A} (l : list A) : 0 ≤ len l.
Proof. unfold len. lia. Qed.

Lemma len_zero {A} (l : list A) : len l = 0 ↔ l = [].
Proof.
  unfold len. destruct l; simpl; split; intros H; try done; lia.
Qed.

(** ** The view filter *)

Lemma isNew_spec (c : Card) : isNew c = proficiencyStage (filter_only new) c.
Proof.
  unfold isNew, proficiencyStage. destruct (proficiency c) as [p|].
  - destruct p; by vm_compute.
  - by rewrite bool_decide_eq_true_2; [|left].
Qed.

Lemma visible_filter (cs : list Card) (fm : FilterMode) (tag : string) :
  visible cs fm tag = List.filter (keeps fm (tagFilter tag)) cs.
Proof.
  unfold visible, keeps, tagFilter.
  assert (Hp : (match fm with
                | filter_only new => List.filter isNew cs
                | filter_only p => List.filter (hasProficiency p) cs
                | filter_all => cs
                end) = List.filter (proficiencyStage fm) cs).
  { destruct fm as [|[]]; simpl.
    - induction cs as [|c cs IH]; simpl; congruence.
    - apply filter_ext. intros c. apply isNew_spec.
    - done.
    - done. }
  rewrite Hp. destruct (truthy tag).
  - rewrite filter_filter_andb. done.
  - apply filter_ext. intros c. simpl. by rewrite andb_true_r.
Qed.


(** ** The cursor *)

Lemma updater_nonneg (t : Timer) (i : Z) :
  0 < timerLen t → 0 ≤ i → 0 ≤ updater t i.
Proof.
  destruct t as [n|n]; simpl; intros Hn Hi; case_bool_decide;
    apply Z.rem_nonneg; lia.
Qed.

(** A timer leaves the raw index inside the view it was scheduled over. *)
Lemma updater_lt (t : Timer) (i : Z) :
  0 < timerLen t → 0 ≤ i → updater t i < timerLen t.
Proof.
  destruct t as [n|n]; simpl; intros Hn Hi; case_bool_decide;
    apply Z.rem_bound_pos; lia.
Qed.

Lemma cursorInv_mount (INITIAL_DATA : list Card) (st : Storage) :
  cursorInv (mount INITIAL_DATA st).
Proof. split; simpl; [lia | constructor]. Qed.

Lemma cursorInv_filterEffect (old s : AppState) :
  cursorInv s → cursorInv (filterEffect old s).
Proof.
  intros [Hi Ht]. unfold filterEffect. case_bool_decide; split; simpl;
    try done; lia.
Qed.

Lemma cursorInv_handleNextWith (n : Z) (s : AppState) :
  0 ≤ n → cursorInv s → cursorInv (handleNextWith n s).
Proof.
  intros Hn [Hi Ht]. unfold handleNextWith. case_bool_decide; [done|].
  split; simpl; [done|]. apply Forall_app. split; [done|].
  repeat constructor. simpl. lia.
Qed.

Lemma cursorInv_step (INITIAL_DATA : list Card) (e : Event) (s : AppState) :
  cursorInv s → cursorInv (step INITIAL_DATA e s).
Proof.
  intros Hs. pose proof Hs as [Hi Ht]. destruct e; simpl.
  - apply cursorInv_handleNextWith; [apply len_nonneg | done].
  - unfold handlePrev. pose proof (len_nonneg (displayCards s)).
    case_bool_decide; [done|]. split; simpl; [done|].
    apply Forall_app. split; [done|]. repeat constructor. simpl. lia.
  - done.
  - unfold fireTimer. destruct (timers s) as [|t ts] eqn:E; [done|].
    inversion Ht; subst. split; simpl; [|done].
    by apply updater_nonneg.
  - by apply cursorInv_filterEffect.
  - by apply cursorInv_filterEffect.
  - by apply cursorInv_filterEffect.
  - unfold handleMark. destruct (currentCard s) as [cur|]; [|done].
    destruct (willStayVisible p cur s).
    + apply cursorInv_handleNextWith; [apply len_nonneg | done].
    + destruct (_ && _); split; simpl; try done; lia.
  - unfold handleDeleteCard. destruct (currentCard s) as [cur|]; [|done].
    destruct confirm; [|done].
    case_bool_decide; split; simpl; try done; lia.
  - unfold handleEditCard. by destruct (currentCard s).
  - done.
  - split; simpl; [lia | done].
  - unfold handleSaveData. apply cursorInv_filterEffect.
    split; simpl; [lia | done].
  - done.
  - unfold handleReset. destruct confirm; [|done]. simpl.
    apply cursorInv_filterEffect. split; simpl; [lia | done].
Qed.

Lemma cursorInv_run (INITIAL_DATA : list Card) (es : list Event)
    (s : AppState) :
  cursorInv s → cursorInv (run INITIAL_DATA es s).
Proof.
  revert s. induction es as [|e es IH]; intros s Hs; simpl; [done|].
  apply IH. by apply cursorInv_step.
Qed.

Lemma effectiveIndex_range (s : AppState) :
  0 ≤ currentIndex s → displayCards s ≠ [] →
  0 ≤ effectiveIndex s ≤ len (displayCards s) - 1.
Proof.
  intros Hi Hne. unfold effectiveIndex.
  assert (0 < len (displayCards s)).
  { pose proof (len_nonneg (displayCards s)).
    pose proof (len_zero (displayCards s)) as [Hz _].
    destruct (decide (len (displayCards s) = 0)); [by apply Hz in e | lia]. }
  lia.
Qed.

Lemma at_index_is_Some {A} (l : list A) (i : Z) :
  is_Some (at_index l i) ↔ 0 ≤ i < len l.
Proof.
  unfold at_index, len. case_bool_decide.
  - rewrite lookup_lt_is_Some. lia.
  - split; [intros [? ?]; done | lia].
Qed.

Lemma currentCard_empty (s : AppState) :
  displayCards s = [] → currentCard s = None.
Proof.
  intros H. unfold currentCard, at_index. rewrite H.
  by case_bool_decide.
Qed.

Lemma currentCard_in_view (s : AppState) (cur : Card) :
  currentCard s = Some cur →
  cur ∈ displayCards s
  ∧ 0 ≤ effectiveIndex s < len (displayCards s).
Proof.
  intros H. split.
  - unfold currentCard, at_index in H. case_bool_decide; [|done].
    by eapply list_elem_of_lookup_2.
  - apply at_index_is_Some. unfold currentCard in H. by rewrite H.
Qed.

Lemma currentCard_lookup (s : AppState) (cur : Card) :
  currentCard s = Some cur →
  displayCards s !! Z.to_nat (effectiveIndex s) = Some cur.
Proof. unfold currentCard, at_index. by case_bool_decide. Qed.

(** C1. Take the state after mounting (cursor at 0) and any finite
    sequence of events: next, prev, flip, a timer firing, a change of the
    proficiency or tag filter, mark, delete, edit, update, shuffle,
    replace, append, reset. In the state [s] reached, the effective index
    is the recomputed [min(currentIndex, max(0, length - 1))]; when the
    view has cards it lies in [0, length - 1] and the current card
    exists; when the view is empty it is 0, there is no current card, and
    next, prev, mark and delete leave the state as it is. Every handler
    is a total function of the state, so no event throws, and the
    property holds again after any further event. *)
Theorem cursor_safety (INITIAL_DATA : list Card) (st : Storage)
    (es : list Event) :
  let s := run INITIAL_DATA es (mount INITIAL_DATA st) in
  effectiveIndex s
    = Z.min (currentIndex s) (Z.max 0 (len (displayCards s) - 1))
  ∧ (displayCards s ≠ [] →
       0 ≤ effectiveIndex s ≤ len (displayCards s) - 1
       ∧ is_Some (currentCard s))
  ∧ (displayCards s = [] →
       effectiveIndex s = 0 ∧ currentCard s = None
       ∧ handleNext s = s ∧ handlePrev s = s
       ∧ (∀ p, handleMark p s = s)
       ∧ (∀ confirm, handleDeleteCard confirm s = s)).
Proof.
  intros s.
  assert (Hinv : cursorInv s)
    by (apply cursorInv_run, cursorInv_mount).
  destruct Hinv as [Hi _].
  split; [done|]. split.
  - intros Hne. pose proof (effectiveIndex_range s Hi Hne) as Hr.
    split; [done|]. apply at_index_is_Some. lia.
  - intros He.
    assert (Hn : len (displayCards s) = 0) by by apply len_zero.
    pose proof (currentCard_empty s He) as Hc.
    split; [unfold effectiveIndex; lia|]. split; [done|].
    unfold handleNext, handleNextWith, handlePrev, handleMark,
      handleDeleteCard. rewrite Hn, Hc.
    rewrite bool_decide_eq_true_2 by done. done.
Qed.

(** C1 at work: after next, mark and a change of filter the view [B; C]
    is not empty and the cursor is on one of its cards. *)
Lemma cursor_safety_witness :
  let s := run [] [Next; TimerFires; Mark known;
                   FilterChange (filter_only new)] (mount [] store3) in
  displayCards s ≠ []
  ∧ 0 ≤ effectiveIndex s ≤ len (displayCards s) - 1
  ∧ is_Some (currentCard s).
Proof.
  intros s. split; [by vm_compute|].
  pose proof (cursor_safety [] store3
                [Next; TimerFires; Mark known;
                 FilterChange (filter_only new)]) as (_ & H & _).
  apply H. by vm_compute.
Defined.

(** ** next() and prev() *)

Lemma settle_timers (n : nat) (s : AppState) :
  length (timers s) = n →
  currentIndex (Nat.iter n fireTimer s)
    = fold_left (fun i t => updater t i) (timers s) (currentIndex s)
  ∧ timers (Nat.iter n fireTimer s) = []
  ∧ cards (Nat.iter n fireTimer s) = cards s
  ∧ isFlipped (Nat.iter n fireTimer s) = isFlipped s
  ∧ filterMode (Nat.iter n fireTimer s) = filterMode s
  ∧ selectedTag (Nat.iter n fireTimer s) = selectedTag s
  ∧ localStorage (Nat.iter n fireTimer s) = localStorage s.
Proof.
  revert s. induction n as [|n IH]; intros s Hn.
  - destruct (timers s) eqn:E; [|done]. simpl. by rewrite E.
  - destruct (timers s) as [|t ts] eqn:E; [done|].
    rewrite Nat.iter_succ_r.
    assert (Hf : fireTimer s
                 = setCurrentIndex (updater t (currentIndex s))
                                   (setTimers ts s))
      by (unfold fireTimer; by rewrite E).
    rewrite Hf. specialize (IH (setCurrentIndex (updater t (currentIndex s))
                                                 (setTimers ts s))).
    simpl in IH. simpl in Hn. apply IH. lia.
Qed.

Lemma settle_spec (s : AppState) :
  currentIndex (settle s)
    = fold_left (fun i t => updater t i) (timers s) (currentIndex s)
  ∧ timers (settle s) = []
  ∧ cards (settle s) = cards s
  ∧ isFlipped (settle s) = isFlipped s
  ∧ filterMode (settle s) = filterMode s
  ∧ selectedTag (settle s) = selectedTag s
  ∧ localStorage (settle s) = localStorage s.
Proof. by apply settle_timers. Qed.

(** Timers move the cursor and nothing else: the view is the same. *)
Lemma displayCards_settle (s : AppState) :
  displayCards (settle s) = displayCards s.
Proof.
  unfold displayCards.
  pose proof (settle_spec s) as (_ & _ & -> & _ & -> & -> & _). done.
Qed.

(** [next] and [prev] are the handler followed by its timer. *)
Lemma next_prev_as_events (INITIAL_DATA : list Card) (s : AppState) :
  timers s = [] →
  next s = run INITIAL_DATA [Next; TimerFires] s
  ∧ prev s = run INITIAL_DATA [Prev; TimerFires] s.
Proof.
  intros Ht. unfold next, prev, settle. simpl.
  unfold handleNext, handleNextWith, handlePrev.
  case_bool_decide; simpl; rewrite Ht; simpl; [|done].
  unfold fireTimer. by rewrite Ht.
Qed.

(** With nothing to show, next() and prev() do nothing. *)
Lemma next_prev_empty (s : AppState) :
  displayCards s = [] → handleNext s = s ∧ handlePrev s = s.
Proof.
  intros He. apply len_zero in He.
  unfold handleNext, handleNextWith, handlePrev. rewrite He.
  by rewrite bool_decide_eq_true_2.
Qed.

(** From an index inside the view, next() and prev() unflip and move one
    position, around the ends. *)
Lemma next_prev_in_range (s : AppState) :
  timers s = [] → 0 ≤ currentIndex s < len (displayCards s) →
  currentIndex (next s) = (currentIndex s + 1) `mod` len (displayCards s)
  ∧ isFlipped (next s) = false
  ∧ currentIndex (prev s) = (currentIndex s - 1) `mod` len (displayCards s)
  ∧ isFlipped (prev s) = false.
Proof.
  intros Ht Hr. unfold next, prev, handleNext, handleNextWith, handlePrev.
  rewrite bool_decide_eq_false_2 by lia.
  set (sn := setTimeout _ _). set (sp := setTimeout _ _).
  pose proof (settle_spec sn) as (-> & _ & _ & -> & _).
  pose proof (settle_spec sp) as (-> & _ & _ & -> & _).
  subst sn sp. simpl. rewrite Ht. simpl.
  rewrite bool_decide_eq_false_2 by lia.
  rewrite !Z.rem_mod_nonneg by lia.
  repeat split; try done.
  replace (currentIndex s - 1 + len (displayCards s))
    with (currentIndex s - 1 + 1 * len (displayCards s)) by lia.
  by rewrite Z.mod_add by lia.
Qed.

(** From a raw index past the view, the step starts at 0, not at the
    card on display. *)
Lemma next_prev_stale (s : AppState) :
  timers s = [] → 0 < len (displayCards s) ≤ currentIndex s →
  currentIndex (next s) = 1 `mod` len (displayCards s)
  ∧ currentIndex (prev s) = len (displayCards s) - 1.
Proof.
  intros Ht Hr. unfold next, prev, handleNext, handleNextWith, handlePrev.
  rewrite bool_decide_eq_false_2 by lia.
  set (sn := setTimeout _ _). set (sp := setTimeout _ _).
  pose proof (settle_spec sn) as (-> & _).
  pose proof (settle_spec sp) as (-> & _).
  subst sn sp. simpl. rewrite Ht. simpl.
  rewrite bool_decide_eq_true_2 by lia.
  rewrite !Z.rem_mod_nonneg by lia. split; [done|].
  replace (0 - 1 + len (displayCards s))
    with (len (displayCards s) - 1) by lia.
  apply Z.mod_small. lia.
Qed.

(** C4. The state [afterUntagging] is reached from mounting by events of
    the interface: the view [A; B] has two cards, the raw index is 2 and
    the card on display is the last one, B, at effective index 1. One
    past it, around the end, is position 0. [next] steps from 0 instead
    and arrives at 1: B stays on display. [prev] arrives at 1 as well. *)
Theorem next_steps_from_zero_when_stale :
  let s := afterUntagging in
  map id (displayCards s) = ["A"; "B"]
  ∧ timers s = []
  ∧ currentIndex s = 2
  ∧ effectiveIndex s = 1
  ∧ currentCard s = Some taggedB
  ∧ Z.rem (effectiveIndex s + 1) (len (displayCards s)) = 0
  ∧ currentIndex (next s) = 1
  ∧ currentCard (next s) = Some taggedB
  ∧ currentIndex (prev s) = 1
  ∧ currentCard (prev s) = Some taggedB.
Proof. by vm_compute. Qed.

(** ** Mutation reconciliation: mark and delete *)

Lemma tagStage_hasTag (tag : string) (c : Card) :
  tagStage (tagFilter tag) c = negb (truthy tag) || hasTag tag c.
Proof. unfold tagFilter, tagStage, hasTag. by destruct (truthy tag). Qed.

Lemma in_view_keeps (s : AppState) (c : Card) :
  c ∈ displayCards s ↔
  c ∈ cards s ∧ keeps (filterMode s) (tagFilter (selectedTag s)) c = true.
Proof. unfold displayCards. by rewrite visible_filter, elem_of_filter_bool. Qed.

(** The test of [handleMark] is the view filter applied to the marked
    card. *)
Lemma willStayVisible_keeps (s : AppState) (p : Proficiency) (cur : Card) :
  cur ∈ displayCards s →
  willStayVisible p cur s
  = keeps (filterMode s) (tagFilter (selectedTag s)) (withProficiency p cur).
Proof.
  intros [_ Hk]%in_view_keeps. unfold keeps in *.
  apply andb_true_iff in Hk as [_ Ht].
  rewrite tagStage_hasTag in *. unfold willStayVisible.
  replace (hasTag (selectedTag s) (withProficiency p cur))
    with (hasTag (selectedTag s) cur) by done.
  rewrite Ht, !andb_true_r.
  destruct (filterMode s) as [|q]; [done|].
  destruct p, q; by vm_compute.
Qed.

(** A card marked with a proficiency the filter rejects is rejected
    whatever else it holds. *)
Lemma leaves_any (fm : FilterMode) (tf tf' : option string)
    (p : Proficiency) (c c' : Card) :
  tagStage tf c = true →
  keeps fm tf (withProficiency p c) = false →
  keeps fm tf' (withProficiency p c') = false.
Proof.
  unfold keeps. intros Ht H.
  replace (tagStage tf (withProficiency p c)) with (tagStage tf c) in H
    by (unfold tagStage; by destruct tf).
  rewrite Ht, andb_true_r in H. apply andb_false_iff. left.
  destruct fm as [|q]; [done|]. destruct p, q; by vm_compute in *.
Qed.

Lemma same_id_eq (cs : list Card) (a b : Card) :
  NoDup (map id cs) → a ∈ cs → b ∈ cs → id a = id b → a = b.
Proof.
  induction cs as [|c cs IH]; simpl; intros Hnd Ha Hb Hid.
  - by apply elem_of_nil in Ha.
  - apply NoDup_cons in Hnd as [Hc Hnd].
    apply elem_of_cons in Ha as [->|Ha]; apply elem_of_cons in Hb as [->|Hb].
    + done.
    + exfalso. apply Hc. rewrite Hid.
      apply list_elem_of_In, in_map, list_elem_of_In, Hb.
    + exfalso. apply Hc. rewrite <- Hid.
      apply list_elem_of_In, in_map, list_elem_of_In, Ha.
    + by apply IH.
Qed.

Lemma NoDup_ids_sublist (l cs : list Card) :
  l `sublist_of` cs → NoDup (map id cs) → NoDup (map id l).
Proof.
  intros Hs. induction Hs; simpl; intros Hnd; [done| |].
  - apply NoDup_cons in Hnd as [Hx Hnd]. apply NoDup_cons. split; [|auto].
    intros Hin. apply Hx.
    apply list_elem_of_In, in_map_iff in Hin as (c & Hc & Hin).
    apply list_elem_of_In, in_map_iff. exists c. split; [done|].
    apply list_elem_of_In. eapply elem_of_sublist; [|done].
    by apply list_elem_of_In.
  - apply NoDup_cons in Hnd as [_ Hnd]. auto.
Qed.

(** Among cards with distinct ids, removing the cards that share the id
    of a member removes that member and nothing else. *)
Lemma len_without_member (l : list Card) (cur : Card) :
  NoDup (map id l) → cur ∈ l →
  len (List.filter (fun c => negb (sameId c cur)) l) = len l - 1.
Proof.
  unfold len. induction l as [|c l IH]; simpl; intros Hnd Hin.
  - by apply elem_of_nil in Hin.
  - apply NoDup_cons in Hnd as [Hc Hnd]. unfold sameId at 1.
    case_bool_decide as Hid; simpl.
    + assert (Hall : List.filter (fun c => negb (sameId c cur)) l = l).
      { apply forallb_filter_id, forallb_forall. intros x Hx.
        unfold sameId. case_bool_decide as Hx'; [|done]. exfalso.
        apply Hc. rewrite Hid, <- Hx'.
        by apply list_elem_of_In, in_map. }
      rewrite Hall. lia.
    + apply elem_of_cons in Hin as [->|Hin]; [done|].
      specialize (IH Hnd Hin). lia.
Qed.

(** Among distinct ids, it removes the position of that member. *)
Lemma filter_out_member_delete (l : list Card) (i : nat) (cur : Card) :
  NoDup (map id l) → l !! i = Some cur →
  List.filter (fun c => negb (sameId c cur)) l = delete i l.
Proof.
  revert i. induction l as [|x l IH]; intros i Hnd Hi; [done|].
  simpl in Hnd. apply NoDup_cons in Hnd as [Hx Hnd].
  destruct i as [|i]; simpl in *.
  - inversion Hi; subst x. unfold sameId at 1.
    rewrite bool_decide_eq_true_2 by done. simpl.
    apply forallb_filter_id, forallb_forall. intros y Hy.
    unfold sameId. case_bool_decide as Hid; [|done]. exfalso.
    apply Hx. rewrite <- Hid. by apply list_elem_of_In, in_map.
  - unfold sameId at 1. rewrite bool_decide_eq_false_2.
    + simpl. f_equal. by apply IH.
    + intros Hid. apply Hx. rewrite Hid.
      apply list_elem_of_In, in_map, list_elem_of_In.
      by eapply list_elem_of_lookup_2.
Qed.

(** Marking with a rejected proficiency removes from the view the cards
    with the marked id. *)
Lemma view_after_mark_leaves (fm : FilterMode) (tf : option string)
    (p : Proficiency) (cur : Card) (cs : list Card) :
  (∀ c, keeps fm tf (withProficiency p c) = false) →
  List.filter (keeps fm tf)
    (map (fun c => if sameId c cur then withProficiency p c else c) cs)
  = List.filter (fun c => negb (sameId c cur)) (List.filter (keeps fm tf) cs).
Proof.
  intros Hout. induction cs as [|c cs IH]; simpl; [done|].
  destruct (sameId c cur) eqn:E.
  - rewrite Hout, IH. destruct (keeps fm tf c); simpl; [|done].
    by rewrite E.
  - rewrite IH. destruct (keeps fm tf c); simpl; [|done].
    by rewrite E.
Qed.

(** Marking with an accepted proficiency, among distinct ids, changes
    the view at the marked card only. *)
Lemma view_after_mark_stays (fm : FilterMode) (tf : option string)
    (p : Proficiency) (cur : Card) (cs : list Card) :
  (∀ c, c ∈ cs → sameId c cur = true →
        keeps fm tf (withProficiency p c) = keeps fm tf c) →
  List.filter (keeps fm tf)
    (map (fun c => if sameId c cur then withProficiency p c else c) cs)
  = map (fun c => if sameId c cur then withProficiency p c else c)
        (List.filter (keeps fm tf) cs).
Proof.
  induction cs as [|c cs IH]; simpl; intros Hk; [done|].
  rewrite IH by (intros; apply Hk; [by apply list_elem_of_further|done]).
  destruct (sameId c cur) eqn:E.
  - rewrite Hk by (done || apply list_elem_of_here).
    destruct (keeps fm tf c); simpl; [|done]. by rewrite E.
  - destruct (keeps fm tf c); simpl; [|done]. by rewrite E.
Qed.

Lemma filter_comm {A} (f g : A → bool) (l : list A) :
  List.filter f (List.filter g l) = List.filter g (List.filter f l).
Proof.
  rewrite !filter_filter_andb. apply filter_ext. intros x. apply andb_comm.
Qed.


Lemma view_after_delete (s : AppState) (cur : Card) :
  currentCard s = Some cur →
  displayCards (handleDeleteCard true s)
  = List.filter (fun c => negb (sameId c cur)) (displayCards s).
Proof.
  intros Hc. unfold handleDeleteCard. rewrite Hc.
  transitivity (visible (List.filter (fun c => negb (sameId c cur)) (cards s))
                        (filterMode s) (selectedTag s)).
  - by case_bool_decide.
  - unfold displayCards. rewrite !visible_filter. apply filter_comm.
Qed.

Lemma view_after_mark (s : AppState) (p : Proficiency) (cur : Card) :
  currentCard s = Some cur →
  displayCards (handleMark p s)
  = visible (map (fun c => if sameId c cur then withProficiency p c else c)
                 (cards s))
            (filterMode s) (selectedTag s).
Proof.
  intros Hc. unfold handleMark. rewrite Hc.
  destruct (willStayVisible p cur s).
  - unfold handleNextWith. by case_bool_decide.
  - by destruct (_ && _).
Qed.

Lemma cursor_after_shrink (s : AppState) (p : Proficiency) (cur : Card) :
  currentCard s = Some cur →
  let moved :=
    if bool_decide (effectiveIndex s = len (displayCards s) - 1)
    then Z.max 0 (effectiveIndex s - 1) else currentIndex s in
  (willStayVisible p cur s = false →
   currentIndex (handleMark p s) = moved
   ∧ isFlipped (handleMark p s) = false)
  ∧ currentIndex (handleDeleteCard true s) = moved
  ∧ isFlipped (handleDeleteCard true s) = false.
Proof.
  intros Hc moved. pose proof (currentCard_in_view s cur Hc) as [_ Hr].
  subst moved. unfold handleMark, handleDeleteCard. rewrite Hc.
  split; [intros ->|]; repeat case_bool_decide; simpl; split; (done || lia).
Qed.

(** C2, as amended. The card on display leaves the view, because it is
    deleted or because the proficiency it is marked with does not pass
    the active filters. Then the view loses the cards with its id; if
    the effective index was the last index of the view before the change
    (so beyond the last index of the new view), the raw index becomes
    that index minus one, not below 0, and otherwise the raw index stays
    as it is; the card is unflipped. When ids are distinct the view is
    one shorter, the new effective index is the old one, or one less
    (not below 0) when the old one was the last, and the card on display
    is the one that followed the card that left, or the one before it
    when that card was the last (none when it was the only one). *)
Theorem shrink_policy (s s' : AppState) (cur : Card) :
  currentCard s = Some cur →
  (s' = handleDeleteCard true s
   ∨ ∃ p, keeps (filterMode s) (tagFilter (selectedTag s))
                (withProficiency p cur) = false
          ∧ s' = handleMark p s) →
  let n := len (displayCards s) in
  let eff := effectiveIndex s in
  displayCards s'
  = List.filter (fun c => negb (sameId c cur)) (displayCards s)
  ∧ currentIndex s'
    = (if bool_decide (eff = n - 1) then Z.max 0 (eff - 1)
       else currentIndex s)
  ∧ isFlipped s' = false
  ∧ (NoDup (map id (cards s)) →
     len (displayCards s') = n - 1
     ∧ effectiveIndex s'
       = (if bool_decide (eff = n - 1) then Z.max 0 (eff - 1) else eff)
     ∧ currentCard s'
       = (if bool_decide (eff = n - 1) then at_index (displayCards s) (eff - 1)
          else at_index (displayCards s) (eff + 1))).
Proof.
  intros Hc Hs' n eff.
  pose proof (currentCard_in_view s cur Hc) as [Hin Hr].
  pose proof (cursor_after_shrink s) as Hcur.
  assert (Hview : displayCards s'
                  = List.filter (fun c => negb (sameId c cur)) (displayCards s)
                  ∧ currentIndex s'
                    = (if bool_decide (eff = n - 1) then Z.max 0 (eff - 1)
                       else currentIndex s)
                  ∧ isFlipped s' = false).
  { destruct Hs' as [->|(p & Hk & ->)].
    - split; [by apply view_after_delete|].
      by destruct (Hcur new cur Hc) as (_ & ? & ?).
    - split.
      + rewrite (view_after_mark s p cur Hc). unfold displayCards.
        rewrite !visible_filter. apply view_after_mark_leaves.
        intros c. eapply leaves_any; [|exact Hk].
        apply in_view_keeps in Hin as [_ Hin]. unfold keeps in Hin.
        by apply andb_true_iff in Hin as [_ ?].
      + rewrite <- (willStayVisible_keeps s p cur Hin) in Hk.
        by destruct (Hcur p cur Hc) as (Hm & _); apply Hm. }
  destruct Hview as (Hv & Hi & Hf).
  split; [done|]. split; [done|]. split; [done|]. intros Hnd.
  assert (Hndv : NoDup (map id (displayCards s))).
  { eapply NoDup_ids_sublist; [|done].
    unfold displayCards. rewrite visible_filter. apply filter_sublist. }
  assert (Hl : len (displayCards s') = n - 1)
    by (rewrite Hv; by apply len_without_member).
  assert (He : effectiveIndex s'
               = (if bool_decide (eff = n - 1) then Z.max 0 (eff - 1)
                  else eff)).
  { unfold effectiveIndex at 1. rewrite Hl, Hi.
    subst eff n. unfold effectiveIndex in *. case_bool_decide; lia. }
  split; [done|]. split; [done|].
  pose proof (currentCard_lookup s cur Hc) as Hlook.
  unfold currentCard at 1. rewrite He, Hv.
  rewrite (filter_out_member_delete _ _ _ Hndv Hlook).
  fold eff in Hlook. fold n in Hr. fold eff in Hr. unfold at_index.
  case_bool_decide as Hlast.
  - destruct (decide (eff = 0)) as [E0|E0].
    + assert (Hn1 : length (displayCards s) = 1%nat)
        by (unfold n, len in *; lia).
      rewrite (bool_decide_eq_true_2 (0 ≤ Z.max 0 (eff - 1))) by lia.
      rewrite (bool_decide_eq_false_2 (0 ≤ eff - 1)) by lia.
      change (effectiveIndex s) with eff. rewrite E0. clear -Hn1.
      destruct (displayCards s) as [|x [|y l]]; by simplify_eq/=.
    + rewrite Z.max_r by lia. rewrite !bool_decide_eq_true_2 by lia.
      apply list_lookup_delete_lt. lia.
  - rewrite !bool_decide_eq_true_2 by lia.
    rewrite list_lookup_delete_ge by lia. f_equal. lia.
Qed.

(** C2 at work: the last of three new cards is marked as known. *)
Lemma shrink_policy_witness :
  let s := studying [cardA; cardB; cardC] (filter_only new) "" 2 in
  let s' := handleMark known s in
  displayCards s' = [cardA; cardB]
  ∧ currentIndex s' = 1
  ∧ isFlipped s' = false
  ∧ effectiveIndex s' = 1
  ∧ currentCard s' = Some cardB.
Proof.
  intros s s'.
  assert (Hc : currentCard s = Some cardC) by by vm_compute.
  assert (Hs : s' = handleDeleteCard true s
               ∨ ∃ p, keeps (filterMode s) (tagFilter (selectedTag s))
                            (withProficiency p cardC) = false
                      ∧ s' = handleMark p s)
    by (right; exists known; by vm_compute).
  assert (Hnd : NoDup (map id (cards s)))
    by (apply (bool_decide_unpack _); by vm_compute).
  pose proof (shrink_policy s s' cardC Hc Hs) as (Hv & Hi & Hf & Hn).
  destruct (Hn Hnd) as (_ & He & Hcur).
  split; [exact Hv|]. split; [exact Hi|]. split; [exact Hf|].
  split; [exact He | exact Hcur].
Defined.

(** C2, as the specification words it, fails. In the view [A; B; C] of
    new cards with the cursor on B (index 1), marking B as known makes B
    leave the view, now [A; C], whose last index is 1. The effective
    index 1 is at that last index, yet the position is not decremented
    to 0: it stays 1 and C is shown. *)
Lemma shrink_policy_counterexample :
  let s := studying [cardA; cardB; cardC] (filter_only new) "" 1 in
  let s' := handleMark known s in
  currentCard s = Some cardB
  ∧ displayCards s' = [cardA; cardC]
  ∧ effectiveIndex s >= len (displayCards s') - 1
  ∧ Z.max 0 (effectiveIndex s - 1) = 0
  ∧ currentIndex s' = 1
  ∧ currentCard s' = Some cardC.
Proof. by vm_compute. Qed.

Lemma map_mark_lookup (p : Proficiency) (cur : Card) (cs : list Card)
    (i : nat) (c : Card) :
  cs !! i = Some c →
  map (fun c => if sameId c cur then withProficiency p c else c) cs !! i
  = Some (if bool_decide (id c = id cur) then withProficiency p c else c).
Proof.
  revert i. induction cs as [|x cs IH]; intros [|i] H; simpl in *; try done.
  - by inversion H.
  - by apply IH.
Qed.

Lemma map_mark_other (p : Proficiency) (cur : Card) (l : list Card) :
  (∀ x, x ∈ l → id x ≠ id cur) →
  map (fun c => if sameId c cur then withProficiency p c else c) l = l.
Proof.
  induction l as [|x l IH]; simpl; intros H; [done|].
  rewrite IH by (intros; apply H; by apply list_elem_of_further).
  unfold sameId. rewrite bool_decide_eq_false_2; [done|].
  apply H, list_elem_of_here.
Qed.

(** Among distinct ids, marking rewrites one position. *)
Lemma map_mark_insert (p : Proficiency) (cur : Card) (cs : list Card)
    (i : nat) :
  NoDup (map id cs) → cs !! i = Some cur →
  map (fun c => if sameId c cur then withProficiency p c else c) cs
  = <[i := withProficiency p cur]> cs.
Proof.
  revert i. induction cs as [|x cs IH]; intros i Hnd Hi; [done|].
  simpl in Hnd. apply NoDup_cons in Hnd as [Hx Hnd].
  destruct i as [|i]; simpl in *.
  - inversion Hi; subst x. unfold sameId at 1.
    rewrite bool_decide_eq_true_2 by done. f_equal.
    apply map_mark_other. intros y Hy Hid. apply Hx. rewrite <- Hid.
    by apply list_elem_of_In, in_map, list_elem_of_In.
  - rewrite (IH i Hnd Hi). unfold sameId.
    rewrite bool_decide_eq_false_2; [done|]. intros Hid. apply Hx.
    rewrite Hid. apply list_elem_of_In, in_map, list_elem_of_In.
    by eapply list_elem_of_lookup_2.
Qed.

Lemma mark_as_next (s : AppState) (p : Proficiency) (cur : Card) :
  currentCard s = Some cur → willStayVisible p cur s = true →
  isFlipped (handleMark p s) = false
  ∧ timers (handleMark p s) = timers (handleNext s)
  ∧ currentIndex (handleMark p s) = currentIndex (handleNext s)
  ∧ isFlipped (handleNext s) = false.
Proof.
  intros Hc Hw. pose proof (currentCard_in_view s cur Hc) as [_ Hr].
  unfold handleMark, handleNext, handleNextWith. rewrite Hc, Hw.
  by rewrite bool_decide_eq_false_2 by lia.
Qed.

(** C3. With a card [cur] on display, [mark] sets the proficiency of the
    card with that id and of no other: the collection keeps its length,
    each position holds the card it held, marked when its id is the id
    of [cur], and among distinct ids exactly the position of [cur] is
    rewritten. If the marked card still passes the proficiency stage and
    the tag stage of the active filters, it is in the new view and the
    cursor does what [next] does: the card is unflipped, the same timer
    is scheduled, and once it fires the raw index is the one [next]
    yields, one position further around the view when it was inside the
    view; among distinct ids the view changes at the marked card only.
    In the scenario [A; B; C], all new, filter all, cursor on A, marking
    A as known makes A known, keeps A in the view and lands on B. *)
Theorem mark_postcondition (s : AppState) (p : Proficiency) (cur : Card) :
  currentCard s = Some cur →
  let s' := handleMark p s in
  length (cards s') = length (cards s)
  ∧ (∀ i c, cards s !! i = Some c →
            cards s' !! i
            = Some (if bool_decide (id c = id cur) then withProficiency p c
                    else c))
  ∧ (NoDup (map id (cards s)) →
     ∃ i, cards s !! i = Some cur
          ∧ cards s' = <[i := withProficiency p cur]> (cards s))
  ∧ (keeps (filterMode s) (tagFilter (selectedTag s))
           (withProficiency p cur) = true →
     withProficiency p cur ∈ displayCards s'
     ∧ isFlipped s' = false
     ∧ timers s' = timers (handleNext s)
     ∧ currentIndex s' = currentIndex (handleNext s)
     ∧ currentIndex (settle s') = currentIndex (next s)
     ∧ (timers s = [] → 0 ≤ currentIndex s < len (displayCards s) →
        currentIndex (settle s')
        = (currentIndex s + 1) `mod` len (displayCards s))
     ∧ (NoDup (map id (cards s)) →
        displayCards s'
        = <[Z.to_nat (effectiveIndex s) := withProficiency p cur]>
            (displayCards s)))
  ∧ (let s0 := studying [cardA; cardB; cardC] filter_all "" 0 in
     let s1 := settle (handleMark known s0) in
     currentCard s0 = Some cardA
     ∧ cards s1 = [withProficiency known cardA; cardB; cardC]
     ∧ displayCards s1 = [withProficiency known cardA; cardB; cardC]
     ∧ currentCard s1 = Some cardB).
Proof.
  intros Hc s'. pose proof (currentCard_in_view s cur Hc) as [Hin Hr].
  pose proof Hin as [Hcs Hk]%in_view_keeps.
  assert (Hcards : cards s'
    = map (fun c => if sameId c cur then withProficiency p c else c)
          (cards s)).
  { subst s'. unfold handleMark. rewrite Hc.
    destruct (willStayVisible p cur s).
    - unfold handleNextWith. by case_bool_decide.
    - by destruct (_ && _). }
  split; [by rewrite Hcards, length_map|].
  split; [intros i c Hi; rewrite Hcards; by apply map_mark_lookup|].
  split.
  { intros Hnd. apply list_elem_of_lookup in Hcs as [i Hi]. exists i.
    split; [done|]. rewrite Hcards. by apply map_mark_insert. }
  split; [|by vm_compute].
  intros Hk'. pose proof Hk' as Hw.
  rewrite <- (willStayVisible_keeps s p cur Hin) in Hw.
  destruct (mark_as_next s p cur Hc Hw) as (Hf & Ht & Hi & _).
  assert (Hsettle : currentIndex (settle s') = currentIndex (next s)).
  { unfold next.
    pose proof (settle_spec s') as (-> & _).
    pose proof (settle_spec (handleNext s)) as (-> & _).
    subst s'. by rewrite Ht, Hi. }
  split.
  { apply in_view_keeps.
    assert (Hfm : filterMode s' = filterMode s ∧ selectedTag s' = selectedTag s).
    { subst s'. unfold handleMark. rewrite Hc, Hw. unfold handleNextWith.
      by case_bool_decide. }
    destruct Hfm as [-> ->]. split; [|done]. rewrite Hcards.
    apply list_elem_of_In, in_map_iff. exists cur.
    unfold sameId. rewrite bool_decide_eq_true_2 by done.
    split; [done|]. by apply list_elem_of_In. }
  split; [done|]. split; [done|]. split; [done|]. split; [done|]. split.
  { intros Ht0 Hr0. rewrite Hsettle.
    by destruct (next_prev_in_range s Ht0 Hr0) as (-> & _). }
  intros Hnd. subst s'. rewrite (view_after_mark s p cur Hc).
  unfold displayCards. rewrite !visible_filter.
  rewrite view_after_mark_stays.
  - apply map_mark_insert.
    + eapply NoDup_ids_sublist; [apply filter_sublist | done].
    + apply currentCard_lookup in Hc. unfold displayCards in Hc.
      by rewrite visible_filter in Hc.
  - intros c Hcin Hsame. unfold sameId in Hsame.
    apply bool_decide_eq_true_1 in Hsame.
    rewrite (same_id_eq (cards s) c cur Hnd Hcin Hcs Hsame).
    by rewrite Hk, Hk'.
Qed.

(** C3 at work, on the scenario of the specification. *)
Lemma mark_postcondition_witness :
  let s := studying [cardA; cardB; cardC] filter_all "" 0 in
  let s' := handleMark known s in
  currentCard s = Some cardA
  ∧ cards s' !! 0%nat = Some (withProficiency known cardA)
  ∧ withProficiency known cardA ∈ displayCards s'
  ∧ isFlipped s' = false
  ∧ currentIndex (settle s') = 1.
Proof.
  intros s s'.
  assert (Hc : currentCard s = Some cardA) by by vm_compute.
  pose proof (mark_postcondition s known cardA Hc) as (_ & Hi & _ & Hk & _).
  assert (Hkeeps : keeps (filterMode s) (tagFilter (selectedTag s))
                         (withProficiency known cardA) = true)
    by by vm_compute.
  destruct (Hk Hkeeps) as (Hin & Hf & _ & _ & _ & Hn & _).
  split; [exact Hc|]. split; [exact (Hi 0%nat cardA eq_refl)|].
  split; [exact Hin|]. split; [exact Hf|].
  apply Hn; by vm_compute.
Defined.

(** ** Shuffle *)

Lemma insertLeft_perm {A} (rand : nat → Q) (k : nat) (tmp : A)
    (prefix : list A) :
  (insertLeft rand k tmp prefix).1 ≡ₚ tmp :: prefix.
Proof.
  revert k. induction prefix as [|y rest IH]; intros k; simpl; [done|].
  destruct (positive (comparefn rand k)); simpl; [|done].
  specialize (IH (S k)). destruct (insertLeft rand (S k) tmp rest) as [r k'].
  simpl in *. rewrite IH. apply perm_swap.
Qed.

Lemma sort_fold_perm {A} (rand : nat → Q) (a : list A) (acc : list A * nat) :
  (fold_left (fun acc tmp => insertLeft rand acc.2 tmp acc.1) a acc).1
  ≡ₚ a ++ acc.1.
Proof.
  revert acc. induction a as [|x a IH]; intros acc; simpl; [done|].
  rewrite IH, insertLeft_perm. by rewrite Permutation_middle.
Qed.

Lemma sort_perm {A} (rand : nat → Q) (a : list A) : sort rand a ≡ₚ a.
Proof.
  unfold sort. rewrite <- Permutation_rev, sort_fold_perm. simpl.
  by rewrite app_nil_r.
Qed.




(** The engine's sort does not matter for this. Whatever sort turns a
    bounded number [K] of fair comparator outcomes into an order of three
    cards, the six orders cannot be equally likely: their frequencies
    add up to [2 ^ K], which is no multiple of 6. *)

Lemma coins_length (K : nat) : length (coins K) = (2 ^ K)%nat.
Proof.
  induction K as [|K IH]; [done|]. simpl coins.
  assert (H : ∀ l : list (list bool),
            length (flat_map (fun bs => [true :: bs; false :: bs]) l)
            = (2 * length l)%nat).
  { induction l as [|x l IHl]; simpl; [done|]. rewrite IHl. lia. }
  rewrite H, IH, Nat.pow_succ_r'. done.
Qed.

Lemma pow2_mod3 (K : nat) :
  ∃ q, (2 ^ K = 3 * q + 1 ∨ 2 ^ K = 3 * q + 2)%nat.
Proof.
  induction K as [|K [q [H|H]]].
  - exists 0%nat. by left.
  - exists (2 * q)%nat. right. rewrite Nat.pow_succ_r'. lia.
  - exists (2 * q + 1)%nat. left. rewrite Nat.pow_succ_r'. lia.
Qed.

Lemma orders_of_three (o : list Card) :
  o ≡ₚ [cardA; cardB; cardC] →
  o ∈ [[cardA; cardB; cardC]; [cardB; cardA; cardC]; [cardB; cardC; cardA];
       [cardA; cardC; cardB]; [cardC; cardA; cardB]; [cardC; cardB; cardA]].
Proof.
  intros H. symmetry in H. apply permutations_Permutation in H.
  by vm_compute in H.
Qed.

Lemma frequencies_add_up (R : list (list Card)) :
  (∀ r, r ∈ R → r ≡ₚ [cardA; cardB; cardC]) →
  let count o := length (List.filter (fun r => bool_decide (r = o)) R) in
  (length R
   = count [cardA; cardB; cardC] + count [cardB; cardA; cardC]
     + count [cardB; cardC; cardA] + count [cardA; cardC; cardB]
     + count [cardC; cardA; cardB] + count [cardC; cardB; cardA])%nat.
Proof.
  induction R as [|r R IH]; intros Hall; [done|].
  assert (Hr := orders_of_three r (Hall r (list_elem_of_here _ _))).
  specialize (IH (fun x Hx => Hall x (list_elem_of_further _ _ _ Hx))).
  simpl in IH. cbn zeta. cbn [List.filter].
  repeat (apply elem_of_cons in Hr as [->|Hr]);
    [| | | | | |by apply elem_of_nil in Hr];
    repeat (rewrite bool_decide_eq_true_2 by done
            || rewrite bool_decide_eq_false_2 by done);
    simpl; lia.
Qed.

Lemma no_sort_shuffles_three_uniformly (K : nat) (f : list bool → list Card) :
  (∀ bs, f bs ≡ₚ [cardA; cardB; cardC]) →
  ¬ (∀ o1 o2, o1 ≡ₚ [cardA; cardB; cardC] → o2 ≡ₚ [cardA; cardB; cardC] →
              frequencyOf K f o1 = frequencyOf K f o2).
Proof.
  intros Hperm Huni.
  assert (Hsum := frequencies_add_up (map f (coins K))).
  cbn zeta in Hsum. rewrite length_map, coins_length in Hsum.
  fold (frequencyOf K f [cardA; cardB; cardC]) in Hsum.
  fold (frequencyOf K f [cardB; cardA; cardC]) in Hsum.
  fold (frequencyOf K f [cardB; cardC; cardA]) in Hsum.
  fold (frequencyOf K f [cardA; cardC; cardB]) in Hsum.
  fold (frequencyOf K f [cardC; cardA; cardB]) in Hsum.
  fold (frequencyOf K f [cardC; cardB; cardA]) in Hsum.
  assert (Hin : ∀ r, r ∈ map f (coins K) → r ≡ₚ [cardA; cardB; cardC]).
  { intros r Hr. apply list_elem_of_In, in_map_iff in Hr as (bs & <- & _).
    apply Hperm. }
  specialize (Hsum Hin).
  assert (Hp : ∀ o, o ∈ [[cardB; cardA; cardC]; [cardB; cardC; cardA];
                         [cardA; cardC; cardB]; [cardC; cardA; cardB];
                         [cardC; cardB; cardA]] →
                    frequencyOf K f o = frequencyOf K f [cardA; cardB; cardC]).
  { intros o Ho. apply Huni; [|done].
    symmetry. apply permutations_Permutation.
    repeat (apply elem_of_cons in Ho as [->|Ho]);
      [| | | | |by apply elem_of_nil in Ho];
      apply (bool_decide_unpack _); by vm_compute. }
  assert (Hmem : ∀ o, bool_decide (o ∈ [[cardB; cardA; cardC];
                    [cardB; cardC; cardA]; [cardA; cardC; cardB];
                    [cardC; cardA; cardB]; [cardC; cardB; cardA]]) = true →
                 frequencyOf K f o = frequencyOf K f [cardA; cardB; cardC])
    by (intros o Ho%bool_decide_eq_true_1; by apply Hp).
  pose proof (Hmem [cardB; cardA; cardC] eq_refl).
  pose proof (Hmem [cardB; cardC; cardA] eq_refl).
  pose proof (Hmem [cardA; cardC; cardB] eq_refl).
  pose proof (Hmem [cardC; cardA; cardB] eq_refl).
  pose proof (Hmem [cardC; cardB; cardA] eq_refl).
  destruct (pow2_mod3 K) as [q [Hq|Hq]]; lia.
Qed.

(** ** Reset *)

(** C9, as amended. A confirmed reset removes the entry of the store and
    writes nothing in its place; it returns the seed data
    [INITIAL_DATA], which becomes the collection in memory and is what a
    later load, finding no entry, falls back to; the cursor is at 0, the
    card unflipped, the filters cleared. A reset that is not confirmed
    changes nothing. *)
Theorem reset_postcondition (INITIAL_DATA : list Card) (s : AppState) :
  let s' := handleReset INITIAL_DATA true s in
  resetData INITIAL_DATA (localStorage s) = (INITIAL_DATA, localStorage s')
  ∧ entry (localStorage s') = None
  ∧ cards s' = INITIAL_DATA
  ∧ loadCards INITIAL_DATA (localStorage s') = INITIAL_DATA
  ∧ cards (mount INITIAL_DATA (localStorage s')) = INITIAL_DATA
  ∧ currentIndex s' = 0
  ∧ isFlipped s' = false
  ∧ filterMode s' = filter_all
  ∧ selectedTag s' = ""
  ∧ (INITIAL_DATA ≠ [] →
     displayCards s' = INITIAL_DATA ∧ currentCard s' = head INITIAL_DATA
     ∧ is_Some (currentCard s'))
  ∧ handleReset INITIAL_DATA false s = s.
Proof.
  intros s'.
  assert (Hs' : s' = mkApp INITIAL_DATA 0 false (mode s) filter_all ""
                           (editingCard s) (timers s)
                           (removeItem (localStorage s))).
  { subst s'. unfold handleReset, filterEffect. simpl. by case_bool_decide. }
  rewrite Hs'. clear Hs' s'.
  do 9 (split; [done|]). split; [|done].
  intros Hne. destruct INITIAL_DATA as [|c l]; [done|].
  split; [done|]. unfold currentCard.
  assert (He : effectiveIndex
                 (mkApp (c :: l) 0 false (mode s) filter_all ""
                        (editingCard s) (timers s)
                        (removeItem (localStorage s))) = 0).
  { unfold effectiveIndex. simpl currentIndex.
    pose proof (len_nonneg l). change (displayCards _) with (c :: l).
    unfold len in *. simpl length. lia. }
  rewrite He. split; [done | by eexists].
Qed.

(** C9 at work: a reset with two seed cards, from a filtered view. *)
Lemma reset_postcondition_witness :
  let s' := handleReset [cardA; cardB] true
              (studying [cardC] (filter_only known) "t" 4) in
  cards s' = [cardA; cardB]
  ∧ displayCards s' = [cardA; cardB]
  ∧ currentCard s' = Some cardA
  ∧ entry (localStorage s') = None.
Proof.
  intros s'.
  pose proof (reset_postcondition [cardA; cardB]
                (studying [cardC] (filter_only known) "t" 4))
    as (_ & He & Hc & _ & _ & _ & _ & _ & _ & Hne & _).
  assert (Hseed : [cardA; cardB] ≠ []) by done.
  destruct (Hne Hseed) as (Hd & Hcur & _).
  split; [exact Hc|]. split; [exact Hd|]. split; [exact Hcur | exact He].
Defined.

(** The variant of [storage.ts] without seed data: a reset leaves an
    empty collection, and so does the next load. *)
Lemma reset_without_seed (s : AppState) :
  cards (handleReset [] true s) = []
  ∧ loadCards [] (localStorage (handleReset [] true s)) = [].
Proof.
  unfold handleReset, filterEffect. simpl. by case_bool_decide.
Qed.

(** C9, as the specification words it, fails: the seed data is not
    persisted. The store holds [A]; after a reset with the seed [B] the
    collection in memory is [B] and the store has no entry at all. *)
Lemma reset_does_not_persist :
  let s := studying [cardA] filter_all "" 0 in
  let s' := handleReset [cardB] true s in
  entry (localStorage s) = Some (Serialized [cardA])
  ∧ cards s' = [cardB]
  ∧ entry (localStorage s') = None
  ∧ entry (localStorage s') ≠ Some (Serialized [cardB]).
Proof. by vm_compute. Qed.

(** ** What reaches the store *)

Lemma saveCards_entry (cs : list Card) (st : Storage) :
  full st = false → entry (saveCards cs st) = Some (Serialized cs).
Proof. intros H. unfold saveCards, setItem. by rewrite H. Qed.

Lemma localStorage_filterEffect (old s : AppState) :
  localStorage (filterEffect old s) = localStorage s.
Proof. unfold filterEffect. by case_bool_decide. Qed.

(** C10. Shuffle reorders the collection in memory and leaves the store
    exactly as it was; so does every event after it that is no mutation
    of the collection. The shuffled order reaches the store with the
    next mark, delete, update, append or replace, each of which (the
    store accepting writes) stores the collection it leaves in memory. *)
Theorem shuffle_does_not_persist (INITIAL_DATA : list Card)
    (rand : nat → Q) (s : AppState) :
  let s' := handleShuffle rand s in
  localStorage s' = localStorage s
  ∧ cards s' = sort rand (cards s)
  ∧ (∀ e, touchesStorage e = false →
          localStorage (step INITIAL_DATA e s') = localStorage s)
  ∧ (full (localStorage s) = false →
     ∀ e, savesCollection e s' = true →
          entry (localStorage (step INITIAL_DATA e s'))
          = Some (Serialized (cards (step INITIAL_DATA e s'))))
  ∧ (full (localStorage s) = false →
     ∀ cs, entry (localStorage (handleAppendData cs s'))
           = Some (Serialized (sort rand (cards s) ++ cs))).
Proof.
  intros s'. split; [done|]. split; [done|]. split; [|split].
  - intros e He. destruct e; try done; simpl.
    + unfold handleNext, handleNextWith. by case_bool_decide.
    + unfold handlePrev. by case_bool_decide.
    + unfold fireTimer. by destruct (timers s').
    + unfold changeFilterMode. by rewrite localStorage_filterEffect.
    + unfold changeSelectedTag. by rewrite localStorage_filterEffect.
    + unfold clearFilters. by rewrite localStorage_filterEffect.
    + unfold handleEditCard. by destruct (currentCard _).
  - intros Hfull e He.
    assert (Hsave : ∀ cs, entry (saveCards cs (localStorage s'))
                          = Some (Serialized cs))
      by (intros cs; by apply saveCards_entry).
    destruct e as [| | | | | | |p|[|]| |c| |cs|cs|]; try done; simpl in *.
    + apply bool_decide_eq_true_1 in He as [cur Hc].
      unfold handleMark. rewrite Hc.
      destruct (willStayVisible _ _ _).
      * unfold handleNextWith. case_bool_decide; apply Hsave.
      * destruct (_ && _); apply Hsave.
    + apply bool_decide_eq_true_1 in He as [cur Hc].
      unfold handleDeleteCard. rewrite Hc. case_bool_decide; apply Hsave.
    + apply Hsave.
    + unfold handleSaveData. rewrite localStorage_filterEffect.
      unfold filterEffect. case_bool_decide; apply Hsave.
    + apply Hsave.
  - intros Hfull cs. by apply saveCards_entry.
Qed.

(** C10 at work: the store keeps the old order after the shuffle and
    receives the new one with the next append. *)
Lemma shuffle_does_not_persist_witness :
  let s := studying [cardA; cardB; cardC] filter_all "" 1 in
  let s' := handleShuffle (draws [true; true; true]) s in
  cards s' = [cardC; cardB; cardA]
  ∧ entry (localStorage s') = Some (Serialized [cardA; cardB; cardC])
  ∧ entry (localStorage (handleAppendData [] s'))
    = Some (Serialized [cardC; cardB; cardA]).
Proof.
  intros s s'.
  pose proof (shuffle_does_not_persist [] (draws [true; true; true]) s)
    as (Hst & _ & _ & _ & Happ).
  subst s'. split; [by vm_compute|]. split; [by rewrite Hst|].
  rewrite (Happ eq_refl []). by vm_compute.
Defined.

(** ** Import: validation *)

Lemma hasQuestionAndAnswer_lacks (item : value) :
  match hasQuestionAndAnswer item with
  | inl _ => lacks item = true
  | inr b => lacks item = negb b
  end.
Proof. by destruct item. Qed.

(** [every] answers [true] exactly when no item lacks a field; otherwise
    it answers [false] or throws, and some item lacks one. *)
Lemma every_cases (items : list value) :
  (every items = inr true ∧ Forall (fun item => lacks item = false) items)
  ∨ (((∃ e, every items = inl e) ∨ every items = inr false)
     ∧ Exists (fun item => lacks item = true) items).
Proof.
  induction items as [|item items IH]; simpl.
  - left. by split.
  - pose proof (hasQuestionAndAnswer_lacks item) as Hl.
    destruct (hasQuestionAndAnswer item) as [e|[|]].
    + right. split; [left; by exists e | by apply Exists_cons_hd].
    + simpl in Hl. destruct IH as [[-> Hall]|[Hf Hex]].
      * left. split; [done | by constructor].
      * right. split; [done | by apply Exists_cons_tl].
    + right. split; [by right | by apply Exists_cons_hd].
Qed.

Lemma Forall_Exists_lacks (items : list value) :
  Forall (fun item => lacks item = false) items →
  Exists (fun item => lacks item = true) items → False.
Proof.
  intros Hall Hex. apply Exists_exists in Hex as (item & Hin & Hl).
  rewrite Forall_forall in Hall. specialize (Hall item Hin). congruence.
Qed.

Lemma every_no_throw (items : list value) :
  Forall (fun item => item ≠ VNull ∧ item ≠ VUndefined) items →
  ∃ b, every items = inr b.
Proof.
  induction 1 as [|item items [Hn Hu] _ [b IH]]; simpl; [by exists true|].
  destruct item; try done; simpl; try (by exists false).
  destruct (_ && _); [by exists b | by exists false].
Qed.

Section Validation.

Context {App : Type}.
Variable JSON_parse : string → Exn + value.
Variable fresh : nat → string.
Variable onSave onAppend : list value → App → App.

Lemma parseAndValidate_fails (text : string) (k : nat) :
  (∃ e, parseAndValidate JSON_parse fresh text k = inl e)
  ↔ (¬ (∃ items, JSON_parse text = inr (VArr items))
     ∨ ∃ items, JSON_parse text = inr (VArr items)
                ∧ Exists (fun item => lacks item = true) items).
Proof.
  unfold parseAndValidate.
  destruct (JSON_parse text) as [e|v] eqn:Hp.
  - split; [|by exists e]. intros _. left. by intros [items ?].
  - destruct v as [| | | | |items|];
      try (split; [intros _; left; by intros [items ?] | by eexists]).
    destruct (every_cases items) as [[He Hall]|[Hf Hex]].
    + rewrite He. split.
      * by intros [e ?].
      * intros [Hno|(items' & Heq & Hex)].
        -- exfalso. apply Hno. by exists items.
        -- inversion Heq; subst items'. exfalso.
           by eapply Forall_Exists_lacks.
    + split.
      * intros _. right. by exists items.
      * intros _. destruct Hf as [[e ->]| ->]; by eexists.
Qed.

(** C7. The import fails exactly when the text is no sequence (it does
    not parse, or parses to something that is not an array) or some item
    lacks a question or an answer. The message says which: not an array,
    or a card without question or answer (an item that is [null] makes
    the property read itself throw, with the message of that error).
    When it fails, [handleSave] and [handleAppendSubmit] put the message
    in the error field of the editor and return the state of the parent
    untouched before returning: the callback is not called, so the
    collection and the store of [App] are what they were and no card of
    the import is applied. *)
Theorem import_rejects_atomically (ed : EditorState) (app : App)
    (text : string) (k : nat) :
  ((∃ e, parseAndValidate JSON_parse fresh text k = inl e)
   ↔ (¬ (∃ items, JSON_parse text = inr (VArr items))
      ∨ ∃ items, JSON_parse text = inr (VArr items)
                 ∧ Exists (fun item => lacks item = true) items))
  ∧ (∀ v, JSON_parse text = inr v → isArray v = false →
          parseAndValidate JSON_parse fresh text k
          = inl (Error "Data must be an array"))
  ∧ (∀ items,
       JSON_parse text = inr (VArr items) →
       Forall (fun item => item ≠ VNull ∧ item ≠ VUndefined) items →
       Exists (fun item => lacks item = true) items →
       parseAndValidate JSON_parse fresh text k
       = inl (Error "Each card must have a question and answer."))
  ∧ (∀ e,
       parseAndValidate JSON_parse fresh (jsonText ed) (idsDrawn ed) = inl e →
       handleSave JSON_parse fresh onSave ed app
       = (mkEditor (jsonText ed) (Some (message e)) None (showAppendModal ed)
                   (appendText ed) (appendError ed) (idsDrawn ed),
          app))
  ∧ (∀ e,
       parseAndValidate JSON_parse fresh (appendText ed) (idsDrawn ed) = inl e →
       handleAppendSubmit JSON_parse fresh onAppend ed app
       = (mkEditor (jsonText ed) (error ed) (successMsg ed)
                   (showAppendModal ed) (appendText ed) (Some (message e))
                   (idsDrawn ed),
          app))
  ∧ (∀ (s : AppState) e,
       parseAndValidate JSON_parse fresh (jsonText ed) (idsDrawn ed) = inl e →
       (editorSave JSON_parse fresh ed s).2 = s)
  ∧ (∀ (s : AppState) e,
       parseAndValidate JSON_parse fresh (appendText ed) (idsDrawn ed) = inl e →
       (editorAppend JSON_parse fresh ed s).2 = s).
Proof.
  split; [apply parseAndValidate_fails|].
  split.
  { intros v Hp Hv. unfold parseAndValidate. rewrite Hp. by destruct v. }
  split.
  { intros items Hp Hnn Hex. unfold parseAndValidate. rewrite Hp.
    destruct (every_no_throw items Hnn) as [b Hb]. rewrite Hb.
    destruct b; [|done]. exfalso.
    destruct (every_cases items) as [[_ Hall]|[[[e He]|He] _]].
    - by eapply Forall_Exists_lacks.
    - congruence.
    - congruence. }
  split; [intros e He; unfold handleSave; by rewrite He|].
  split; [intros e He; unfold handleAppendSubmit; by rewrite He|].
  split; intros s e He.
  - unfold editorSave, handleSave. by rewrite He.
  - unfold editorAppend, handleAppendSubmit. by rewrite He.
Qed.

End Validation.

(** C7 at work: an item without question is rejected and the collection
    [A] stays. *)
Lemma import_rejects_atomically_witness :
  let s := studying [cardA] filter_all "" 0 in
  let ed := sampleEditor "[{}]" in
  parseAndValidate sampleParse sampleFresh "[{}]" 0
  = inl (Error "Each card must have a question and answer.")
  ∧ (editorSave sampleParse sampleFresh ed s).2 = s
  ∧ error (editorSave sampleParse sampleFresh ed s).1
    = Some "Each card must have a question and answer.".
Proof.
  intros s ed.
  pose proof (import_rejects_atomically sampleParse sampleFresh
                (fun data => handleSaveData (map asCard data))
                (fun data => handleAppendData (map asCard data))
                ed s "[{}]" 0%nat)
    as (_ & _ & Hmsg & Hsave & _ & Hs & _).
  assert (Hp : parseAndValidate sampleParse sampleFresh "[{}]" 0
               = inl (Error "Each card must have a question and answer.")).
  { apply (Hmsg [VObj ∅]); [by vm_compute | |].
    - by repeat constructor.
    - apply Exists_cons_hd. by vm_compute. }
  split; [exact Hp|]. split; [exact (Hs s _ Hp)|].
  unfold editorSave. by rewrite (Hsave _ Hp).
Defined.

(** ** Import: normalisation *)

Section Normalize.

Variable JSON_parse : string → Exn + value.
Variable fresh : nat → string.










End Normalize.





(** The tags of an item that are the empty sequence stay the empty
    sequence, where the edit form of a card stores none. *)
Lemma import_keeps_empty_tags :
  ∃ c, parseAndValidate sampleParse sampleFresh emptyTagsText 0
       = inr ([c], 1%nat)
       ∧ prop "tags" c = VArr []
       ∧ tags (asCard c) = Some [].
Proof. eexists. split; [by vm_compute | by vm_compute]. Qed.

(** * Further properties of [App.tsx] and [utils/storage.ts] *)

(** ** The store *)


(** Events that touch neither the store nor, shuffle apart, the
    collection. *)
Lemma step_frame (INITIAL_DATA : list Card) (e : Event) (s : AppState) :
  touchesStorage e = false →
  localStorage (step INITIAL_DATA e s) = localStorage s
  ∧ (isShuffle e = false → cards (step INITIAL_DATA e s) = cards s).
Proof.
  intros He. destruct e; try done; simpl.
  - unfold handleNext, handleNextWith. by case_bool_decide.
  - unfold handlePrev. by case_bool_decide.
  - unfold fireTimer. by destruct (timers s).
  - unfold changeFilterMode, filterEffect. by case_bool_decide.
  - unfold changeSelectedTag, filterEffect. by case_bool_decide.
  - unfold clearFilters, filterEffect. by case_bool_decide.
  - unfold handleEditCard. by destruct (currentCard s).
Qed.

Lemma reloadShows_step (INITIAL_DATA : list Card) (e : Event) (s : AppState) :
  isShuffle e = false →
  reloadShows INITIAL_DATA s → reloadShows INITIAL_DATA (step INITIAL_DATA e s).
Proof.
  intros Hsh [Hfull Hload].
  assert (Hsave : ∀ cs, full (saveCards cs (localStorage s)) = false
                     ∧ loadCards INITIAL_DATA (saveCards cs (localStorage s))
                       = cs).
  { intros cs. unfold saveCards, setItem, loadCards. by rewrite Hfull. }
  destruct (touchesStorage e) eqn:Ht.
  - destruct e; try done; simpl.
    + unfold handleMark. destruct (currentCard s) as [cur|]; [|done].
      destruct (willStayVisible p cur s).
      * unfold handleNextWith. case_bool_decide; apply Hsave.
      * destruct (_ && _); apply Hsave.
    + unfold handleDeleteCard. destruct (currentCard s) as [cur|]; [|done].
      destruct confirm; [|done]. case_bool_decide; apply Hsave.
    + apply Hsave.
    + unfold handleSaveData, filterEffect. case_bool_decide; apply Hsave.
    + apply Hsave.
    + unfold handleReset. destruct confirm; [|done]. simpl.
      unfold filterEffect. by case_bool_decide.
  - destruct (step_frame INITIAL_DATA e s Ht) as [Hst Hc].
    unfold reloadShows. by rewrite Hst, (Hc Hsh).
Qed.

(** X2. With a store that accepts writes, after any sequence of events
    in which nothing is shuffled, a reload of the page shows the
    collection that is in memory: every handler that changes the
    collection saves it, and a reset leaves a store that falls back to
    the seed data it installed. *)
Theorem reload_shows_collection (INITIAL_DATA : list Card) (st : Storage)
    (es : list Event) :
  full st = false →
  forallb (fun e => negb (isShuffle e)) es = true →
  let s := run INITIAL_DATA es (mount INITIAL_DATA st) in
  loadCards INITIAL_DATA (localStorage s) = cards s
  ∧ cards (mount INITIAL_DATA (localStorage s)) = cards s.
Proof.
  intros Hfull Hes s.
  assert (H : reloadShows INITIAL_DATA s).
  { subst s.
    assert (H0 : reloadShows INITIAL_DATA (mount INITIAL_DATA st)) by done.
    revert H0 Hes. generalize (mount INITIAL_DATA st).
    induction es as [|e es IH]; intros s0 H0 Hes; simpl in *; [done|].
    apply andb_true_iff in Hes as [He Hes]. apply negb_true_iff in He.
    apply IH; [|done]. by apply reloadShows_step. }
  destruct H as [_ H]. by split.
Qed.

(** X2 at work: mark, delete and a reset with the seed [C]. *)
Lemma reload_shows_collection_witness :
  let s := run [cardC] [Mark known; Next; TimerFires; Delete true; Reset true]
               (mount [cardC] store3) in
  cards s = [cardC]
  ∧ loadCards [cardC] (localStorage s) = cards s.
Proof.
  intros s.
  destruct (reload_shows_collection [cardC] store3
              [Mark known; Next; TimerFires; Delete true; Reset true]
              eq_refl eq_refl) as [H _].
  split; [by vm_compute | exact H].
Defined.

(** ** The tag index *)

Lemma leb_compare (a b : string) :
  String.leb a b = true ↔ OrdersEx.String_as_OT.compare a b ≠ Gt.
Proof.
  unfold String.leb.
  change (String.compare a b) with (OrdersEx.String_as_OT.compare a b).
  by destruct (OrdersEx.String_as_OT.compare a b).
Qed.

Global Instance codeUnitOrder_total : Total codeUnitOrder.
Proof.
  intros a b. unfold codeUnitOrder.
  destruct (String.leb_total a b) as [H|H]; [left|right]; by rewrite H.
Qed.

Global Instance codeUnitOrder_antisym : AntiSymm (=) codeUnitOrder.
Proof.
  intros a b Hab Hba. unfold codeUnitOrder in *.
  apply String.leb_antisym; by apply Is_true_true.
Qed.

Global Instance codeUnitOrder_trans : Transitive codeUnitOrder.
Proof.
  intros a b c Hab Hbc. unfold codeUnitOrder in *.
  apply Is_true_true in Hab, Hbc. apply Is_true_true.
  rewrite leb_compare in *.
  pose proof OrdersEx.String_as_OT.lt_strorder as [Hirr Htr].
  destruct (OrdersEx.String_as_OT.compare_spec a b) as [->| Hab' |?];
    [done| |done].
  destruct (OrdersEx.String_as_OT.compare_spec b c) as [<-| Hbc' |?];
    [|clear Hab Hbc|done].
  - intros H. destruct (OrdersEx.String_as_OT.compare_spec a b); try done.
    by eapply Hirr, Htr.
  - destruct (OrdersEx.String_as_OT.compare_spec a c) as [| |Hca];
      [done|done|].
    exfalso. eapply Hirr, Htr; [exact Hab'|]. by eapply Htr.
Qed.

Lemma elem_of_addTags (acc : gset string) (ts : list string) (t : string) :
  t ∈ foldl (fun acc tag => {[tag]} ∪ acc) acc ts ↔ t ∈ acc ∨ t ∈ ts.
Proof.
  revert acc. induction ts as [|x ts IH]; intros acc; simpl.
  - split; [by left | by intros [?|?%elem_of_nil]].
  - rewrite IH, elem_of_union, elem_of_singleton, elem_of_cons. tauto.
Qed.

Lemma elem_of_tagSet (cs : list Card) (t : string) :
  t ∈ tagSet cs ↔ ∃ c ts, c ∈ cs ∧ tags c = Some ts ∧ t ∈ ts.
Proof.
  unfold tagSet.
  assert (H : ∀ acc : gset string,
            t ∈ foldl (fun acc card =>
                         match tags card with
                         | Some ts => foldl (fun acc tag => {[tag]} ∪ acc) acc ts
                         | None => acc
                         end) acc cs
            ↔ t ∈ acc ∨ ∃ c ts, c ∈ cs ∧ tags c = Some ts ∧ t ∈ ts).
  { induction cs as [|c cs IH]; intros acc; simpl.
    - split; [by left|]. intros [?|(c & ts & Hc & _)]; [done|].
      by apply elem_of_nil in Hc.
    - rewrite IH. destruct (tags c) as [ts|] eqn:E.
      + rewrite elem_of_addTags. split.
        * intros [[?|?]|(c' & ts' & ? & ? & ?)]; [by left| |].
          -- right. exists c, ts. split; [apply list_elem_of_here|done].
          -- right. exists c', ts'. split; [by apply list_elem_of_further|done].
        * intros [?|(c' & ts' & [->|?]%elem_of_cons & Ht & ?)].
          -- by left; left.
          -- left; right. congruence.
          -- right. by exists c', ts'.
      + split.
        * intros [?|(c' & ts' & ? & ? & ?)]; [by left|].
          right. exists c', ts'. split; [by apply list_elem_of_further|done].
        * intros [?|(c' & ts' & [->|?]%elem_of_cons & Ht & ?)];
            [by left|congruence|].
          right. by exists c', ts'. }
  rewrite H. split; [intros [?%not_elem_of_empty|?]; done | by right].
Qed.

Lemma elem_of_uniqueTags (cs : list Card) (t : string) :
  t ∈ uniqueTags cs ↔ ∃ c ts, c ∈ cs ∧ tags c = Some ts ∧ t ∈ ts.
Proof.
  unfold uniqueTags. rewrite sorting.merge_sort_Permutation.
  rewrite elem_of_elements. apply elem_of_tagSet.
Qed.

(** X3. The tag index holds exactly the tags that occur in some card,
    each once, in ascending order of code units; it is empty exactly
    when no card has a tag. *)
Theorem uniqueTags_correct (cs : list Card) :
  (∀ t, t ∈ uniqueTags cs ↔ ∃ c ts, c ∈ cs ∧ tags c = Some ts ∧ t ∈ ts)
  ∧ NoDup (uniqueTags cs)
  ∧ Sorted.StronglySorted codeUnitOrder (uniqueTags cs)
  ∧ (∀ i j a b, uniqueTags cs !! i = Some a → uniqueTags cs !! j = Some b →
                (i < j)%nat → String.ltb a b = true)
  ∧ (uniqueTags cs = [] ↔ ∀ c ts, c ∈ cs → tags c = Some ts → ts = []).
Proof.
  assert (Hnd : NoDup (uniqueTags cs)).
  { unfold uniqueTags. rewrite sorting.merge_sort_Permutation.
    apply NoDup_elements. }
  assert (Hs : Sorted.StronglySorted codeUnitOrder (uniqueTags cs))
    by (apply sorting.StronglySorted_merge_sort; apply _).
  split; [apply elem_of_uniqueTags|]. split; [done|]. split; [done|]. split.
  - intros i j a b Hi Hj Hij.
    pose proof (lookup_lt_Some _ _ _ Hj) as Hlen.
    rewrite <- (take_drop_middle _ _ _ Hj) in Hs, Hnd, Hi.
    rewrite lookup_app_l in Hi by (rewrite length_take; lia).
    apply list_elem_of_lookup_2 in Hi.
    assert (Hle : codeUnitOrder a b).
    { eapply sorting.StronglySorted_app_1_elem_of; [exact Hs|exact Hi|].
      apply list_elem_of_here. }
    assert (Hne : a ≠ b).
    { intros ->. apply NoDup_app in Hnd as (_ & Hd & _).
      apply (Hd b Hi), list_elem_of_here. }
    unfold codeUnitOrder, String.leb in Hle. unfold String.ltb.
    destruct (String.compare a b) eqn:E; try done.
    by apply String.compare_eq_iff in E.
  - split.
    + intros He c ts Hc Ht. destruct ts as [|t ts]; [done|].
      assert (Hin : t ∈ uniqueTags cs).
      { apply elem_of_uniqueTags. exists c, (t :: ts).
        split; [done|]. split; [done|]. apply list_elem_of_here. }
      rewrite He in Hin. by apply elem_of_nil in Hin.
    + intros Hno. destruct (uniqueTags cs) as [|t l] eqn:E; [done|].
      assert (Hin : t ∈ uniqueTags cs) by (rewrite E; apply list_elem_of_here).
      apply elem_of_uniqueTags in Hin as (c & ts & Hc & Ht & Hin).
      rewrite (Hno c ts Hc Ht) in Hin. by apply elem_of_nil in Hin.
Qed.

Lemma uniqueTags_ext (cs cs' : list Card) :
  (∀ t, (∃ c ts, c ∈ cs ∧ tags c = Some ts ∧ t ∈ ts)
        ↔ (∃ c ts, c ∈ cs' ∧ tags c = Some ts ∧ t ∈ ts)) →
  uniqueTags cs = uniqueTags cs'.
Proof.
  intros H. unfold uniqueTags. f_equal. f_equal. apply set_eq. intros t.
  by rewrite !elem_of_tagSet.
Qed.

Lemma cards_after_mark (p : Proficiency) (s : AppState) :
  cards (handleMark p s) = cards s
  ∨ ∃ cur, cards (handleMark p s)
           = map (fun c => if sameId c cur then withProficiency p c else c)
                 (cards s).
Proof.
  unfold handleMark. destruct (currentCard s) as [cur|]; [|by left].
  right. exists cur. destruct (willStayVisible p cur s).
  - unfold handleNextWith. by case_bool_decide.
  - by destruct (_ && _).
Qed.

Lemma cards_after_delete (confirm : bool) (s : AppState) :
  cards (handleDeleteCard confirm s) = cards s
  ∨ ∃ cur, currentCard s = Some cur ∧ confirm = true
           ∧ cards (handleDeleteCard confirm s)
             = List.filter (fun c => negb (sameId c cur)) (cards s).
Proof.
  unfold handleDeleteCard. destruct (currentCard s) as [cur|]; [|by left].
  destruct confirm; [|by left]. right. exists cur.
  split; [done|]. split; [done|]. by case_bool_decide.
Qed.

(** X4. The tag index is a function of the tags that occur, not of the
    order or the proficiency of the cards: shuffle, mark, navigation,
    flipping, filter changes and opening the edit form leave it as it
    is, and a delete can only take tags out of it. *)
Theorem uniqueTags_stable (INITIAL_DATA : list Card) (e : Event)
    (s : AppState) :
  (keepsTags e = true →
   uniqueTags (cards (step INITIAL_DATA e s)) = uniqueTags (cards s))
  ∧ (∀ confirm t,
       t ∈ uniqueTags (cards (handleDeleteCard confirm s)) →
       t ∈ uniqueTags (cards s)).
Proof.
  split.
  - intros He. destruct (touchesStorage e) eqn:Ht.
    + destruct e; try done. simpl.
      destruct (cards_after_mark p s) as [->|[cur ->]]; [done|].
      apply uniqueTags_ext. intros t. split.
      * intros (c & ts & Hc & Htags & Hin).
        apply list_elem_of_In, in_map_iff in Hc as (c0 & <- & Hc0).
        exists c0, ts. split; [by apply list_elem_of_In|]. split; [|done].
        by destruct (sameId c0 cur).
      * intros (c & ts & Hc & Htags & Hin).
        exists (if sameId c cur then withProficiency p c else c), ts.
        split; [|split; [by destruct (sameId c cur)|done]].
        apply list_elem_of_In, in_map_iff. exists c.
        split; [done | by apply list_elem_of_In].
    + destruct (isShuffle e) eqn:Hs.
      * destruct e; try done. simpl. apply uniqueTags_ext. intros t.
        assert (Hp : sort rand (cards s) ≡ₚ cards s) by apply sort_perm.
        split; intros (c & ts & Hc & H); exists c, ts;
          (split; [|done]); [by rewrite <- Hp | by rewrite Hp].
      * by destruct (step_frame INITIAL_DATA e s Ht) as [_ ->].
  - intros confirm t.
    destruct (cards_after_delete confirm s) as [->|(cur & _ & _ & ->)];
      [done|].
    rewrite !elem_of_uniqueTags. intros (c & ts & Hc & H).
    exists c, ts. split; [|done]. by apply elem_of_filter_bool in Hc as [? _].
Qed.

(** X4 at work: marking the card on display keeps the index [t]. *)
Lemma uniqueTags_stable_witness :
  let s := studying [taggedA; taggedB] filter_all "" 0 in
  uniqueTags (cards s) = ["t"]
  ∧ uniqueTags (cards (handleMark known s)) = ["t"].
Proof.
  intros s.
  destruct (uniqueTags_stable [] (Mark known) s) as [H _].
  assert (E : uniqueTags (cards s) = ["t"]) by by vm_compute.
  split; [exact E|]. exact (eq_trans (H eq_refl) E).
Defined.

(** X5. Every tag offered by the tag selector leads to a view with
    cards when all proficiencies are shown; a tag that is not in the
    index, as the selected tag may come to be after an edit or a delete,
    leaves the view empty under every proficiency filter. *)
Theorem selected_tag_view (cs : list Card) (t : string) :
  (t ∈ uniqueTags cs → ∃ c, c ∈ visible cs filter_all t)
  ∧ (t ≠ "" → t ∉ uniqueTags cs → ∀ fm, visible cs fm t = []).
Proof.
  split.
  - intros (c & ts & Hc & Ht & Hin)%elem_of_uniqueTags. exists c.
    rewrite visible_filter. apply elem_of_filter_bool. split; [done|].
    unfold keeps, tagFilter, tagStage. simpl. destruct (truthy t); [|done].
    rewrite Ht. by apply bool_decide_eq_true_2.
  - intros Hne Hnot fm. rewrite visible_filter.
    destruct (List.filter _ cs) as [|c l] eqn:E; [done|]. exfalso.
    assert (Hc : c ∈ List.filter (keeps fm (tagFilter t)) cs)
      by (rewrite E; apply list_elem_of_here).
    apply elem_of_filter_bool in Hc as [Hc Hk]. apply Hnot.
    unfold keeps, tagFilter, truthy in Hk.
    rewrite bool_decide_eq_false_2 in Hk by done. simpl in Hk.
    apply andb_true_iff in Hk as [_ Hk].
    destruct (tags c) as [ts|] eqn:Ht; [|done].
    apply bool_decide_eq_true_1 in Hk.
    apply elem_of_uniqueTags. by exists c, ts.
Qed.

(** X5 at work, after the only tagged card lost its tag. *)
Lemma selected_tag_view_witness :
  uniqueTags [untaggedC] = []
  ∧ visible [untaggedC] (filter_only new) "t" = [].
Proof.
  destruct (selected_tag_view [untaggedC] "t") as [_ H].
  split; [by vm_compute|]. apply H; [done|].
  assert (E : uniqueTags [untaggedC] = []) by by vm_compute.
  rewrite E. apply not_elem_of_nil.
Defined.

(** ** The proficiency filters and the status cell *)

Lemma filter_length_cons {A} (f : A → bool) (x : A) (l : list A) :
  length (List.filter f (x :: l))
  = (Nat.b2n (f x) + length (List.filter f l))%nat.
Proof. simpl. by destruct (f x). Qed.

Lemma keeps_one_filter (tf : option string) (c : Card) :
  (Nat.b2n (keeps (filter_only new) tf c)
   + Nat.b2n (keeps (filter_only known) tf c)
   + Nat.b2n (keeps (filter_only unknown) tf c)
   = Nat.b2n (keeps filter_all tf c))%nat.
Proof.
  unfold keeps, proficiencyStage.
  destruct (proficiency c) as [[]|]; destruct (tagStage tf c); by vm_compute.
Qed.

(** X6. The three proficiency filters split the view of [all]: under
    any tag filter, each card shown for [all] is shown for exactly one
    of [new], [known] and [unknown], so the three views have as many
    cards together as the view of [all]. A card without proficiency
    counts as new. *)
Theorem proficiency_filters_partition (cs : list Card) (tag : string) :
  (length (visible cs (filter_only new) tag)
   + length (visible cs (filter_only known) tag)
   + length (visible cs (filter_only unknown) tag)
   = length (visible cs filter_all tag))%nat
  ∧ (∀ c, c ∈ visible cs filter_all tag →
          ∃ p, c ∈ visible cs (filter_only p) tag
               ∧ ∀ q, c ∈ visible cs (filter_only q) tag → q = p).
Proof.
  assert (Hone : ∀ c, ∃ p, proficiencyStage (filter_only p) c = true
                           ∧ ∀ q, proficiencyStage (filter_only q) c = true
                                  → q = p).
  { intros c. unfold proficiencyStage.
    destruct (proficiency c) as [[]|];
      [exists new|exists known|exists unknown|exists new];
      (split; [by vm_compute|]); intros []; by vm_compute. }
  split.
  - rewrite !visible_filter. induction cs as [|c cs IH]; [done|].
    rewrite !filter_length_cons, <- IH.
    pose proof (keeps_one_filter (tagFilter tag) c). lia.
  - intros c Hc. rewrite visible_filter in Hc.
    apply elem_of_filter_bool in Hc as [Hc Hk].
    unfold keeps in Hk. simpl in Hk.
    destruct (Hone c) as (p & Hp & Huniq). exists p. split.
    + rewrite visible_filter. apply elem_of_filter_bool. split; [done|].
      unfold keeps. by rewrite Hp, Hk.
    + intros q Hq. rewrite visible_filter in Hq.
      apply elem_of_filter_bool in Hq as [_ Hq]. unfold keeps in Hq.
      apply andb_true_iff in Hq as [Hq _]. by apply Huniq.
Qed.

(** X7. The status cell of a row of the card list shows exactly one
    icon: the check for a known card, the alert for an unknown one, the
    circle for a card that is new or has no proficiency. *)
Theorem one_status_icon (c : Card) :
  statusIcons c
  = [match proficiency c with
     | Some known => IconCheck
     | Some unknown => IconAlert
     | Some new | None => IconCircle
     end]
  ∧ (isNew c = true ↔ statusIcons c = [IconCircle]).
Proof.
  unfold statusIcons, isNew. by destruct (proficiency c) as [[]|].
Qed.

(** ** Navigation *)

Lemma settle_state (s : AppState) :
  settle s
  = setTimers []
      (setCurrentIndex
         (fold_left (fun i t => updater t i) (timers s) (currentIndex s)) s).
Proof.
  unfold settle. remember (timers s) as ts eqn:E. revert s E.
  induction ts as [|t ts IH]; intros s E.
  - destruct s; simpl in *. by rewrite <- E.
  - cbn [length]. rewrite Nat.iter_succ_r.
    assert (Hf : fireTimer s
                 = setCurrentIndex (updater t (currentIndex s))
                                   (setTimers ts s))
      by (unfold fireTimer; by rewrite <- E).
    rewrite Hf.
    by rewrite (IH (setCurrentIndex (updater t (currentIndex s))
                                    (setTimers ts s)) eq_refl).
Qed.

Lemma displayCards_press (s : AppState) (nav : Nav) :
  displayCards (press s nav) = displayCards s.
Proof.
  destruct nav; simpl.
  - unfold handleNext, handleNextWith. by case_bool_decide.
  - unfold handlePrev. by case_bool_decide.
Qed.

Lemma press_state (s : AppState) (nav : Nav) :
  press s nav
  = if bool_decide (len (displayCards s) = 0) then s
    else setTimeout (timerOf (len (displayCards s)) nav)
                    (setIsFlipped false s).
Proof. by destruct nav. Qed.

(** A press made while timers are pending comes to the same, once all
    have fired, as the press made after they fired. *)
Lemma settle_press (s : AppState) (nav : Nav) :
  settle (press s nav) = move (settle s) nav.
Proof.
  assert (Hm : move (settle s) nav = settle (press (settle s) nav))
    by by destruct nav.
  rewrite Hm, !press_state, displayCards_settle.
  case_bool_decide.
  - rewrite !settle_state. by destruct s.
  - rewrite !settle_state. destruct s. simpl.
    by rewrite fold_left_app.
Qed.

Lemma settle_presses (s : AppState) (navs : list Nav) :
  settle (foldl press s navs) = foldl move (settle s) navs.
Proof.
  induction navs as [|nav navs IH] using rev_ind; [done|].
  by rewrite !foldl_snoc, settle_press, IH.
Qed.

Lemma settle_idle (s : AppState) : timers s = [] → settle s = s.
Proof. intros H. unfold settle. by rewrite H. Qed.

Lemma move_idle (s : AppState) (nav : Nav) :
  timers (move s nav) = [] ∧ displayCards (move s nav) = displayCards s.
Proof.
  assert (Hm : move s nav = settle (press s nav)) by by destruct nav.
  rewrite Hm, displayCards_settle, displayCards_press.
  by rewrite settle_state.
Qed.

(** X8. Presses of next and prev are not lost and not reordered by the
    delay: however many presses are handled before any timer fires, and
    whatever timers were pending, once all timers have fired the state
    is the one reached by letting each press finish before the next. *)
Theorem presses_settle_as_moves (s : AppState) (navs : list Nav) :
  settle (foldl press s navs) = foldl move (settle s) navs
  ∧ (timers s = [] → settle (foldl press s navs) = foldl move s navs).
Proof.
  split; [apply settle_presses|].
  intros H. by rewrite settle_presses, settle_idle.
Qed.

(** X8 at work: next, next, prev pressed in a row over three cards. *)
Lemma presses_settle_as_moves_witness :
  let s := studying [cardA; cardB; cardC] filter_all "" 0 in
  settle (foldl press s [NavNext; NavNext; NavPrev])
  = foldl move s [NavNext; NavNext; NavPrev].
Proof.
  intros s.
  destruct (presses_settle_as_moves s [NavNext; NavNext; NavPrev])
    as [_ H].
  exact (H eq_refl).
Defined.

Lemma move_index (s : AppState) (nav : Nav) :
  timers s = [] → 0 ≤ currentIndex s < len (displayCards s) →
  currentIndex (move s nav)
  = (currentIndex s + stepOf nav) `mod` len (displayCards s).
Proof.
  intros Ht Hr.
  destruct (next_prev_in_range s Ht Hr) as (Hn & _ & Hp & _).
  by destruct nav.
Qed.

(** X9. From a raw index inside the view and with no timer pending, a
    sequence of next and prev moves lands on the index shifted by the
    number of nexts minus the number of prevs, around the ends of the
    view, and shows the card at that index; the view itself stays.
    So prev undoes next, next undoes prev, and as many nexts as the
    view has cards come back to the card they started from. *)
Theorem moves_add_up (s : AppState) (navs : list Nav) :
  timers s = [] → 0 ≤ currentIndex s < len (displayCards s) →
  let n := len (displayCards s) in
  let s' := foldl move s navs in
  currentIndex s' = (currentIndex s + offset navs) `mod` n
  ∧ displayCards s' = displayCards s
  ∧ currentCard s'
    = at_index (displayCards s) ((currentIndex s + offset navs) `mod` n)
  ∧ currentIndex (prev (next s)) = currentIndex s
  ∧ currentIndex (next (prev s)) = currentIndex s
  ∧ currentIndex (Nat.iter (length (displayCards s)) next s) = currentIndex s.
Proof.
  intros Ht Hr n s'.
  assert (Hgen : ∀ navs s0,
            timers s0 = [] → displayCards s0 = displayCards s →
            0 ≤ currentIndex s0 < n →
            currentIndex (foldl move s0 navs)
            = (currentIndex s0 + offset navs) `mod` n
            ∧ displayCards (foldl move s0 navs) = displayCards s
            ∧ timers (foldl move s0 navs) = []).
  { clear navs s'. induction navs as [|nav navs IH]; intros s0 Ht0 Hd0 Hr0.
    - simpl. rewrite Z.add_0_r, Z.mod_small by done. done.
    - simpl foldl. destruct (move_idle s0 nav) as [Htm Hdm].
      assert (Hi : currentIndex (move s0 nav)
                   = (currentIndex s0 + stepOf nav) `mod` n).
      { rewrite move_index; [by rewrite Hd0|done|by rewrite Hd0]. }
      destruct (IH (move s0 nav) Htm) as (Hidx & Hdisp & Htim).
      + by rewrite Hdm.
      + rewrite Hi. apply Z.mod_pos_bound. lia.
      + split; [|done]. rewrite Hidx, Hi. simpl offset.
        rewrite Z.add_mod_idemp_l by lia. f_equal. lia. }
  destruct (Hgen navs s Ht eq_refl Hr) as (Hidx & Hdisp & Htim).
  split; [done|]. split; [done|]. split.
  { subst s'. unfold currentCard, effectiveIndex. rewrite Hdisp, Hidx.
    fold n. f_equal.
    pose proof (Z.mod_pos_bound (currentIndex s + offset navs) n). lia. }
  split.
  { destruct (Hgen [NavNext; NavPrev] s Ht eq_refl Hr) as (H & _).
    change (foldl move s [NavNext; NavPrev]) with (prev (next s)) in H.
    rewrite H. replace (currentIndex s + offset [NavNext; NavPrev])
      with (currentIndex s) by (cbn [offset stepOf]; lia).
    by apply Z.mod_small. }
  split.
  { destruct (Hgen [NavPrev; NavNext] s Ht eq_refl Hr) as (H & _).
    change (foldl move s [NavPrev; NavNext]) with (next (prev s)) in H.
    rewrite H. replace (currentIndex s + offset [NavPrev; NavNext])
      with (currentIndex s) by (cbn [offset stepOf]; lia).
    by apply Z.mod_small. }
  assert (Hiter : ∀ k, Nat.iter k next s
                       = foldl move s (replicate k NavNext)).
  { intros k. induction k as [|k IHk]; [done|].
    rewrite Nat.iter_succ, IHk.
    replace (S k) with (k + 1)%nat by lia.
    by rewrite replicate_add, foldl_app. }
  assert (Hoff : ∀ k, offset (replicate k NavNext) = Z.of_nat k).
  { intros k. induction k as [|k IHk]; [done|].
    simpl. rewrite IHk. lia. }
  rewrite Hiter.
  destruct (Hgen (replicate (length (displayCards s)) NavNext) s Ht
              eq_refl Hr) as (H & _).
  rewrite H, Hoff. fold (len (displayCards s)). fold n.
  replace (currentIndex s + n) with (currentIndex s + 1 * n) by lia.
  rewrite Z.mod_add by lia. by apply Z.mod_small.
Qed.

(** X9 at work: from B, two nexts and a prev over [A; B; C] show C. *)
Lemma moves_add_up_witness :
  let s := studying [cardA; cardB; cardC] filter_all "" 1 in
  currentIndex (foldl move s [NavNext; NavNext; NavPrev]) = 2
  ∧ currentCard (foldl move s [NavNext; NavNext; NavPrev]) = Some cardC
  ∧ currentIndex (prev (next s)) = 1.
Proof.
  intros s.
  assert (Hr : 0 ≤ currentIndex s < len (displayCards s)) by by vm_compute.
  destruct (moves_add_up s [NavNext; NavNext; NavPrev] eq_refl Hr)
    as (Hi & _ & Hc & Hpn & _).
  split; [exact Hi|]. split; [exact Hc | exact Hpn].
Defined.

(** ** Filter changes *)

Lemma at_index_first {A} (l : list A) :
  at_index l (Z.min 0 (Z.max 0 (len l - 1))) = head l.
Proof.
  pose proof (len_nonneg l). rewrite Z.min_l by lia.
  unfold at_index. simpl. by destruct l.
Qed.

(** X10. A change of the proficiency filter or of the selected tag puts
    the cursor on the first card of the new view, unflipped, and leaves
    the collection and the store alone; choosing the filter or the tag
    that is already active changes nothing, so the cursor stays where it
    is. *)
Theorem filter_change_shows_first (s : AppState) :
  (∀ fm, fm ≠ filterMode s →
         let s' := changeFilterMode fm s in
         currentIndex s' = 0 ∧ isFlipped s' = false
         ∧ displayCards s' = visible (cards s) fm (selectedTag s)
         ∧ currentCard s' = head (displayCards s')
         ∧ cards s' = cards s ∧ localStorage s' = localStorage s)
  ∧ (∀ t, t ≠ selectedTag s →
          let s' := changeSelectedTag t s in
          currentIndex s' = 0 ∧ isFlipped s' = false
          ∧ displayCards s' = visible (cards s) (filterMode s) t
          ∧ currentCard s' = head (displayCards s')
          ∧ cards s' = cards s ∧ localStorage s' = localStorage s)
  ∧ changeFilterMode (filterMode s) s = s
  ∧ changeSelectedTag (selectedTag s) s = s.
Proof.
  split; [|split; [|split]].
  - intros fm Hfm s'. subst s'. unfold changeFilterMode, filterEffect.
    rewrite bool_decide_eq_false_2 by (simpl; intros [? _]; congruence).
    do 3 (split; [done|]). split; [|done].
    unfold currentCard, effectiveIndex. simpl currentIndex.
    apply at_index_first.
  - intros t Ht s'. subst s'. unfold changeSelectedTag, filterEffect.
    rewrite bool_decide_eq_false_2 by (simpl; intros [_ ?]; congruence).
    do 3 (split; [done|]). split; [|done].
    unfold currentCard, effectiveIndex. simpl currentIndex.
    apply at_index_first.
  - unfold changeFilterMode, filterEffect.
    rewrite bool_decide_eq_true_2 by done. by destruct s.
  - unfold changeSelectedTag, filterEffect.
    rewrite bool_decide_eq_true_2 by done. by destruct s.
Qed.

(** X10 at work: from the third of three cards to the view of the known
    ones, which has one card. *)
Lemma filter_change_shows_first_witness :
  let s := studying [cardA; withProficiency known cardB; cardC]
                    filter_all "" 2 in
  currentCard (changeFilterMode (filter_only known) s)
  = Some (withProficiency known cardB).
Proof.
  intros s.
  destruct (filter_change_shows_first s) as [H _].
  assert (Hne : filter_only known ≠ filterMode s) by done.
  destruct (H (filter_only known) Hne) as (_ & _ & Hd & Hc & _).
  rewrite Hc, Hd. by vm_compute.
Defined.

(** ** The ids of the collection *)

Lemma ids_after_replace (f : Card → Card) (cs : list Card) :
  (∀ c, id (f c) = id c) → map id (map f cs) = map id cs.
Proof.
  intros H. induction cs as [|c cs IH]; simpl; [done|]. by rewrite H, IH.
Qed.

Lemma ids_filter_sublist (f : Card → bool) (cs : list Card) :
  map id (List.filter f cs) `sublist_of` map id cs.
Proof.
  induction cs as [|c cs IH]; simpl; [constructor|].
  destruct (f c); simpl; by constructor.
Qed.

(** X11. No handler invents or changes an id. Every event other than a
    replace, an append or a reset leaves in the collection only ids that
    were there, each as often as before at most, so a collection with
    distinct ids keeps distinct ids; mark and update leave the sequence
    of ids exactly as it is. *)
Theorem ids_are_kept (INITIAL_DATA : list Card) (e : Event) (s : AppState) :
  bringsCards e = false →
  let s' := step INITIAL_DATA e s in
  (∀ i, i ∈ map id (cards s') → i ∈ map id (cards s))
  ∧ (NoDup (map id (cards s)) → NoDup (map id (cards s')))
  ∧ (∀ p c, e = Mark p ∨ e = Update c →
            map id (cards s') = map id (cards s)).
Proof.
  intros He s'.
  assert (H : map id (cards s') ≡ₚ map id (cards s)
              ∨ map id (cards s') `sublist_of` map id (cards s)).
  { subst s'. destruct (touchesStorage e) eqn:Ht.
    - destruct e; try done; simpl.
      + left. destruct (cards_after_mark p s) as [->|[cur ->]]; [done|].
        rewrite ids_after_replace; [done|].
        intros c. by destruct (sameId c cur).
      + right.
        destruct (cards_after_delete confirm s) as [->|(cur & _ & _ & ->)];
          [done|]. apply ids_filter_sublist.
      + left. rewrite ids_after_replace; [done|].
        intros c. unfold sameId. by case_bool_decide.
    - destruct (isShuffle e) eqn:Hs.
      + destruct e; try done. left. simpl.
        apply Permutation_map, sort_perm.
      + left. by destruct (step_frame INITIAL_DATA e s Ht) as [_ ->]. }
  split; [|split].
  - intros i Hi. destruct H as [H|H]; [by rewrite <- H|].
    by eapply elem_of_sublist.
  - intros Hnd. destruct H as [H|H]; [by rewrite H|].
    by eapply sublist_NoDup.
  - subst s'. intros p c [->| ->]; simpl.
    + destruct (cards_after_mark p s) as [->|[cur ->]]; [done|].
      rewrite ids_after_replace; [done|].
      intros c0. by destruct (sameId c0 cur).
    + rewrite ids_after_replace; [done|].
      intros c0. unfold sameId. by case_bool_decide.
Qed.

(** X11 at work: a delete among three distinct ids. *)
Lemma ids_are_kept_witness :
  let s := studying [cardA; cardB; cardC] filter_all "" 1 in
  map id (cards (handleDeleteCard true s)) = ["A"; "C"]
  ∧ NoDup (map id (cards (handleDeleteCard true s))).
Proof.
  intros s.
  destruct (ids_are_kept [] (Delete true) s eq_refl) as (_ & Hnd & _).
  split; [by vm_compute|]. apply Hnd.
  apply (bool_decide_unpack _). by vm_compute.
Defined.

(** ** Delete and update *)

(** X12. A confirmed delete of the card on display removes from the
    collection the cards with its id and no other, keeps the remaining
    cards in their order, and stores the result; among distinct ids the
    collection is one card shorter. Without the confirmation nothing
    changes. *)
Theorem delete_removes_by_id (s : AppState) (cur : Card) :
  currentCard s = Some cur →
  let s' := handleDeleteCard true s in
  (∀ c, c ∈ cards s' ↔ (c ∈ cards s ∧ id c ≠ id cur))
  ∧ cards s' `sublist_of` cards s
  ∧ (cur ∉ cards s')
  ∧ (NoDup (map id (cards s)) → len (cards s') = len (cards s) - 1)
  ∧ (full (localStorage s) = false →
     entry (localStorage s') = Some (Serialized (cards s')))
  ∧ handleDeleteCard false s = s.
Proof.
  intros Hc s'.
  assert (Hcards : cards s'
                   = List.filter (fun c => negb (sameId c cur)) (cards s)).
  { subst s'. unfold handleDeleteCard. rewrite Hc. by case_bool_decide. }
  assert (Hmem : ∀ c, c ∈ cards s' ↔ c ∈ cards s ∧ id c ≠ id cur).
  { intros c. rewrite Hcards, elem_of_filter_bool. unfold sameId.
    rewrite negb_true_iff, bool_decide_eq_false. done. }
  split; [done|]. split; [rewrite Hcards; apply filter_sublist|].
  split; [rewrite Hmem; by intros [_ ?]|]. split; [|split].
  - intros Hnd. rewrite Hcards. apply len_without_member; [done|].
    apply currentCard_in_view in Hc as [Hin _].
    by apply in_view_keeps in Hin as [? _].
  - intros Hfull. subst s'. unfold handleDeleteCard. rewrite Hc.
    case_bool_decide; by apply saveCards_entry.
  - unfold handleDeleteCard. by rewrite Hc.
Qed.

(** X12 at work: the second of three cards is deleted. *)
Lemma delete_removes_by_id_witness :
  let s := studying [cardA; cardB; cardC] filter_all "" 1 in
  cards (handleDeleteCard true s) `sublist_of` [cardA; cardB; cardC]
  ∧ len (cards (handleDeleteCard true s)) = 2.
Proof.
  intros s.
  assert (Hc : currentCard s = Some cardB) by by vm_compute.
  destruct (delete_removes_by_id s cardB Hc) as (_ & Hsub & _ & Hlen & _).
  split; [exact Hsub|]. apply Hlen.
  apply (bool_decide_unpack _). by vm_compute.
Defined.

(** X13. An update replaces, position by position, the cards that have
    the id of the updated card, keeps the length of the collection and
    the sequence of its ids, closes the edit form, stores the result and
    leaves the cursor and the flip state alone. When no card has that
    id the collection is left as it is: an unknown id is no error. *)
Theorem update_replaces_by_id (u : Card) (s : AppState) :
  let s' := handleUpdateCard u s in
  length (cards s') = length (cards s)
  ∧ map id (cards s') = map id (cards s)
  ∧ (∀ i c, cards s !! i = Some c →
            cards s' !! i = Some (if bool_decide (id c = id u) then u else c))
  ∧ ((∀ c, c ∈ cards s → id c ≠ id u) → cards s' = cards s)
  ∧ editingCard s' = None
  ∧ currentIndex s' = currentIndex s ∧ isFlipped s' = isFlipped s
  ∧ (full (localStorage s) = false →
     entry (localStorage s') = Some (Serialized (cards s'))).
Proof.
  intros s'. subst s'. unfold handleUpdateCard. simpl.
  split; [by rewrite length_map|]. split.
  { apply ids_after_replace. intros c. unfold sameId. by case_bool_decide. }
  split.
  { intros i c Hi. revert i Hi.
    induction (cards s) as [|x l IH]; intros [|i] Hi; simpl in *; try done.
    - by inversion Hi.
    - by apply IH. }
  split.
  { intros Hno. induction (cards s) as [|x l IH]; simpl; [done|].
    rewrite IH by (intros; apply Hno; by apply list_elem_of_further).
    unfold sameId. rewrite bool_decide_eq_false_2; [done|].
    apply Hno, list_elem_of_here. }
  do 3 (split; [done|]). intros Hfull. by apply saveCards_entry.
Qed.

(** X13 at work: an update with an id that no card has. *)
Lemma update_replaces_by_id_witness :
  let s := studying [cardA; cardB] filter_all "" 0 in
  cards (handleUpdateCard cardC s) = [cardA; cardB].
Proof.
  intros s.
  destruct (update_replaces_by_id cardC s) as (_ & _ & _ & H & _).
  apply H. intros c Hc.
  repeat (apply elem_of_cons in Hc as [->|Hc]); try done.
  by apply elem_of_nil in Hc.
Defined.

(** ** The keyboard *)

(** X14. The keyboard only navigates and flips. Outside the study mode
    and while the edit form is open every key is ignored; otherwise the
    right arrow does what the next button does, the left arrow what the
    prev button does, space and Enter flip the card, and any other key
    is ignored. No key changes the collection, the filters or the
    store. *)
Theorem keyboard_only_navigates (key : string) (s : AppState) :
  (mode s ≠ mode_study ∨ is_Some (editingCard s) → handleKeyDown key s = s)
  ∧ (mode s = mode_study → editingCard s = None →
     handleKeyDown "ArrowRight" s = handleNext s
     ∧ handleKeyDown "ArrowLeft" s = handlePrev s
     ∧ handleKeyDown " " s = flip s
     ∧ handleKeyDown "Enter" s = flip s
     ∧ (key ∉ ["ArrowRight"; "ArrowLeft"; " "; "Enter"] →
        handleKeyDown key s = s))
  ∧ cards (handleKeyDown key s) = cards s
  ∧ filterMode (handleKeyDown key s) = filterMode s
  ∧ selectedTag (handleKeyDown key s) = selectedTag s
  ∧ localStorage (handleKeyDown key s) = localStorage s
  ∧ displayCards (handleKeyDown key s) = displayCards s.
Proof.
  assert (Hframe : cards (handleKeyDown key s) = cards s
                   ∧ filterMode (handleKeyDown key s) = filterMode s
                   ∧ selectedTag (handleKeyDown key s) = selectedTag s
                   ∧ localStorage (handleKeyDown key s) = localStorage s).
  { unfold handleKeyDown. destruct (_ || _); [done|].
    unfold handleNext, handleNextWith, handlePrev.
    repeat case_bool_decide; simpl; done. }
  split; [|split].
  - intros H. unfold handleKeyDown.
    destruct H as [H|H].
    + by rewrite (bool_decide_eq_false_2 _ H).
    + rewrite (bool_decide_eq_true_2 _ H). by rewrite orb_true_r.
  - intros Hm He. unfold handleKeyDown. rewrite Hm, He.
    rewrite bool_decide_eq_true_2 by done.
    rewrite (bool_decide_eq_false_2 (is_Some None))
      by (intros [? ?]; done).
    simpl. do 4 (split; [done|]). intros Hk.
    rewrite !bool_decide_eq_false_2; [done|..];
      intros ->; apply Hk;
      repeat first [apply list_elem_of_here | apply list_elem_of_further].
  - destruct Hframe as (Hc & Hf & Ht & Hst).
    do 4 (split; [done|]). unfold displayCards. by rewrite Hc, Hf, Ht.
Qed.

(** X14 at work: the right arrow in the study mode, and with the edit
    form open. *)
Lemma keyboard_only_navigates_witness :
  let s := studying [cardA; cardB] filter_all "" 0 in
  handleKeyDown "ArrowRight" s = handleNext s
  ∧ handleKeyDown "ArrowRight" (handleEditCard s) = handleEditCard s.
Proof.
  intros s.
  destruct (keyboard_only_navigates "ArrowRight" s) as (_ & H & _).
  destruct (H eq_refl eq_refl) as (Hn & _).
  destruct (keyboard_only_navigates "ArrowRight" (handleEditCard s))
    as (Hig & _).
  split; [exact Hn|]. apply Hig. right. by eexists.
Defined.

(** ** The screens *)

(** X22. In every state the application reaches from its start, a card
    screen has a card to show, the one at the position its counter
    names, and the counter lies between 1 and the size of the view; so
    the card component is never handed a missing card. The notice that
    no card matches appears only over a collection that has cards and
    with a filter or a tag set, and its button leads to the first card
    of the whole collection. *)
Theorem screens_have_content (INITIAL_DATA : list Card) (st : Storage)
    (es : list Event) :
  let s := run INITIAL_DATA es (mount INITIAL_DATA st) in
  (∀ c f p n, screen s = CardScreen c f p n →
              is_Some c ∧ 1 ≤ p ≤ n
              ∧ displayCards s !! Z.to_nat (p - 1) = c
              ∧ n = len (displayCards s))
  ∧ (screen s = NoMatchScreen →
     cards s ≠ []
     ∧ (filterMode s ≠ filter_all ∨ selectedTag s ≠ "")
     ∧ screen (clearFilters s)
       = CardScreen (head (cards s)) false 1 (len (cards s))).
Proof.
  intros s.
  assert (Hinv : cursorInv s) by apply cursorInv_run, cursorInv_mount.
  destruct Hinv as [Hi _]. split.
  - intros c f p n Hs. unfold screen in Hs.
    destruct (mode s); repeat case_bool_decide; try done.
    inversion Hs; subst. clear Hs.
    assert (Hne : displayCards s ≠ []).
    { intros E. rewrite E in *. unfold len in *. simpl in *. lia. }
    pose proof (effectiveIndex_range s Hi Hne) as Hr.
    split; [apply at_index_is_Some; lia|]. split; [lia|]. split; [|done].
    unfold currentCard, at_index. rewrite bool_decide_eq_true_2 by lia.
    f_equal. lia.
  - intros Hs. unfold screen in Hs.
    destruct (mode s) eqn:Hm; repeat case_bool_decide; try done.
    assert (Hne : cards s ≠ []) by (by rewrite <- len_zero).
    assert (Hempty : displayCards s = []).
    { apply len_zero. pose proof (len_nonneg (displayCards s)). lia. }
    split; [done|]. split.
    { destruct (filterMode s) eqn:Hf; [|by left]. right. intros Ht.
      unfold displayCards in Hempty. rewrite Hf, Ht in Hempty.
      by apply Hne. }
    assert (Hc : cards (clearFilters s) = cards s
                 ∧ mode (clearFilters s) = mode_study
                 ∧ displayCards (clearFilters s) = cards s
                 ∧ currentIndex (clearFilters s) = 0
                 ∧ isFlipped (clearFilters s) = false).
    { unfold clearFilters, filterEffect. case_bool_decide as Hsame.
      - exfalso. simpl in Hsame. destruct Hsame as [Hf Ht].
        unfold displayCards in Hempty. rewrite Hf, Ht in Hempty.
        by apply Hne.
      - done. }
    destruct Hc as (Hcs & Hmode & Hdc & Hci & Hfl).
    unfold screen. rewrite Hmode, Hcs.
    rewrite bool_decide_eq_false_2 by done.
    unfold currentCard, effectiveIndex. rewrite Hdc, Hci, Hfl.
    pose proof (len_nonneg (cards s)).
    assert (len (cards s) ≠ 0) by (by rewrite len_zero).
    rewrite bool_decide_eq_true_2 by lia.
    rewrite at_index_first. f_equal. lia.
Qed.

(** X22 at work: the filter for known cards over three new ones. *)
Lemma screens_have_content_witness :
  let s := run [] [FilterChange (filter_only known)] (mount [] store3) in
  screen s = NoMatchScreen
  ∧ screen (clearFilters s) = CardScreen (head (cards s)) false 1 3.
Proof.
  intros s.
  destruct (screens_have_content [] store3
              [FilterChange (filter_only known)]) as [_ H].
  assert (Hs : screen s = NoMatchScreen) by by vm_compute.
  split; [exact Hs|].
  destruct (H Hs) as (_ & _ & Hc). exact Hc.
Defined.

(** ** Strings: [split], [trim] and [join] *)

Lemma app_cons (a : Ascii.ascii) (x y : string) :
  String a x +:+ y = String a (x +:+ y).
Proof. reflexivity. Qed.

Lemma app_assoc_string (x y z : string) : (x +:+ y) +:+ z = x +:+ y +:+ z.
Proof.
  induction x as [|a x IH]; [done|]. by rewrite !app_cons, IH.
Qed.

Lemma occurs_app (a : Ascii.ascii) (x y : string) :
  occurs a (x +:+ y) = occurs a x || occurs a y.
Proof.
  induction x as [|b x IH]; [done|].
  rewrite app_cons. simpl. by rewrite IH, orb_assoc.
Qed.

Lemma split_not_nil (sep : Ascii.ascii) (s : string) : split sep s ≠ [].
Proof.
  destruct s as [|a s]; simpl; [done|].
  destruct (Ascii.eqb a sep); [done|]. by destruct (split sep s).
Qed.

Lemma split_without (sep : Ascii.ascii) (x : string) :
  occurs sep x = false → split sep x = [x].
Proof.
  induction x as [|a x IH]; simpl; [done|].
  intros [Ha Hx]%orb_false_iff. by rewrite Ha, IH.
Qed.

Lemma split_at_first (sep : Ascii.ascii) (x y : string) :
  occurs sep x = false →
  split sep (x +:+ String sep y) = x :: split sep y.
Proof.
  induction x as [|a x IH].
  - intros _. change ("" +:+ String sep y) with (String sep y). simpl.
    by rewrite Ascii.eqb_refl.
  - simpl occurs. intros [Ha Hx]%orb_false_iff. rewrite app_cons.
    simpl split. by rewrite Ha, IH.
Qed.

Lemma split_pieces (sep : Ascii.ascii) (s : string) :
  Forall (fun x => occurs sep x = false) (split sep s).
Proof.
  induction s as [|a s IH]; simpl; [by repeat constructor|].
  destruct (Ascii.eqb a sep) eqn:Ha; [by constructor|].
  destruct (split sep s) as [|piece rest].
  - repeat constructor. simpl. by rewrite Ha.
  - inversion IH as [|?? Hp Hr]; subst. constructor; [|done].
    simpl. by rewrite Ha, Hp.
Qed.

Lemma occurs_trimStart (a : Ascii.ascii) (s : string) :
  occurs a s = false → occurs a (trimStart s) = false.
Proof.
  induction s as [|b s IH]; simpl; [done|].
  intros H. destruct (isWhiteSpace b); [|done].
  apply IH. by apply orb_false_iff in H as [_ ?].
Qed.

Lemma occurs_trimEnd (a : Ascii.ascii) (s : string) :
  occurs a s = false → occurs a (trimEnd s) = false.
Proof.
  induction s as [|b s IH]; simpl; [done|].
  intros [Hb Hs]%orb_false_iff. specialize (IH Hs).
  destruct (trimEnd s).
  - destruct (isWhiteSpace b); simpl; [done|by rewrite Hb].
  - simpl. simpl in IH. by rewrite Hb.
Qed.

Lemma trimEnd_idem (s : string) : trimEnd (trimEnd s) = trimEnd s.
Proof.
  induction s as [|a s IH]; simpl; [done|].
  destruct (trimEnd s) as [|b t] eqn:E.
  - destruct (isWhiteSpace a) eqn:Ha; simpl; [done|by rewrite Ha].
  - change (trimEnd (String a (String b t))) with
      (match trimEnd (String b t) with
       | EmptyString =>
           if isWhiteSpace a then EmptyString else String a EmptyString
       | t' => String a t'
       end).
    by rewrite IH.
Qed.

(** A string starts clean when its first character, if any, is no white
    space. *)
Lemma trimStart_starts_clean (s : string) (a : Ascii.ascii) (t : string) :
  trimStart s = String a t → isWhiteSpace a = false.
Proof.
  induction s as [|b s IH]; simpl; [done|].
  destruct (isWhiteSpace b) eqn:Hb; [done|]. intros H. by simplify_eq.
Qed.

Lemma trimStart_fixed (s : string) :
  (∀ a t, s = String a t → isWhiteSpace a = false) → trimStart s = s.
Proof.
  destruct s as [|a s]; simpl; [done|]. intros H.
  by rewrite (H a s eq_refl).
Qed.

Lemma trimEnd_starts_clean (s : string) (a : Ascii.ascii) (t : string) :
  (∀ b u, s = String b u → isWhiteSpace b = false) →
  trimEnd s = String a t → isWhiteSpace a = false.
Proof.
  destruct s as [|b s]; simpl; [done|]. intros H.
  specialize (H b s eq_refl). destruct (trimEnd s).
  - rewrite H. intros ?. by simplify_eq.
  - intros ?. by simplify_eq.
Qed.

Lemma trim_idem (s : string) : trim (trim s) = trim s.
Proof.
  unfold trim. rewrite (trimStart_fixed (trimEnd (trimStart s))).
  - apply trimEnd_idem.
  - intros a t. apply trimEnd_starts_clean. intros b u.
    apply trimStart_starts_clean.
Qed.

Lemma trim_pad (pad x : string) :
  (∀ y, trimStart (pad +:+ y) = trimStart y) →
  trim x = x → trim (pad +:+ x) = x.
Proof. intros Hp Hx. unfold trim. rewrite Hp. exact Hx. Qed.


(** ** The pieces of a text field *)

Lemma cleanPiece_spec (sep : Ascii.ascii) (x : string) :
  cleanPiece sep x = true
  ↔ (0 < String.length x)%nat ∧ trim x = x ∧ occurs sep x = false.
Proof.
  unfold cleanPiece.
  rewrite !andb_true_iff, !bool_decide_eq_true, negb_true_iff. tauto.
Qed.

Lemma splitTrim_pieces (sep : Ascii.ascii) (text : string) :
  forallb (cleanPiece sep) (splitTrim sep text) = true.
Proof.
  apply forallb_forall. intros x Hx.
  unfold splitTrim in Hx. apply filter_In in Hx as [Hx Hlen].
  apply bool_decide_eq_true in Hlen.
  apply in_map_iff in Hx as (p & <- & Hp).
  apply cleanPiece_spec. split; [done|]. split; [apply trim_idem|].
  pose proof (split_pieces sep text) as Hall.
  rewrite Forall_forall in Hall.
  unfold trim. apply occurs_trimEnd, occurs_trimStart, Hall.
  by apply list_elem_of_In.
Qed.

Lemma orUndefined_clean (sep : Ascii.ascii) (text : string) :
  cleanField sep (orUndefined (splitTrim sep text)) = true.
Proof.
  unfold orUndefined. case_bool_decide as H; simpl; [|done].
  rewrite bool_decide_eq_true_2 by done. apply splitTrim_pieces.
Qed.

Lemma map_trim_split_join (sep : Ascii.ascii) (pad p : string)
    (ts : list string) :
  (∀ y, trimStart (pad +:+ y) = trimStart y) → occurs sep pad = false →
  (∀ y, trimStart (p +:+ y) = trimStart y) → occurs sep p = false →
  forallb (cleanPiece sep) ts = true → ts ≠ [] →
  map trim (split sep (p +:+ join (String sep pad) ts)) = ts.
Proof.
  intros Hpad Hpad' Hp Hp' Hts. revert p Hp Hp'.
  induction ts as [|x ts IH]; intros p Hp Hp' Hne; [done|].
  simpl in Hts. apply andb_true_iff in Hts as [Hx Hts].
  apply cleanPiece_spec in Hx as (_ & Hx & Hx').
  destruct ts as [|y ts].
  - simpl join. rewrite split_without by (by rewrite occurs_app, Hp', Hx').
    simpl. by rewrite trim_pad.
  - change (join (String sep pad) (x :: y :: ts))
      with (x +:+ String sep pad +:+ join (String sep pad) (y :: ts)).
    rewrite app_cons, <- app_assoc_string.
    rewrite split_at_first by (by rewrite occurs_app, Hp', Hx').
    rewrite fmap_cons, trim_pad by done. f_equal.
    by apply IH.
Qed.

Lemma splitTrim_join (sep : Ascii.ascii) (pad : string) (ts : list string) :
  (∀ y, trimStart (pad +:+ y) = trimStart y) → occurs sep pad = false →
  forallb (cleanPiece sep) ts = true →
  splitTrim sep (join (String sep pad) ts) = ts.
Proof.
  intros Hpad Hpad' Hts. unfold splitTrim.
  destruct (decide (ts = [])) as [->|Hne]; [done|].
  pose proof (map_trim_split_join sep pad "" ts Hpad Hpad') as H.
  change ("" +:+ join (String sep pad) ts)
    with (join (String sep pad) ts) in H.
  rewrite H by done.
  clear H Hne. induction ts as [|x ts IH]; [done|].
  simpl in Hts. apply andb_true_iff in Hts as [Hx Hts].
  apply cleanPiece_spec in Hx as (Hlen & _). simpl.
  rewrite bool_decide_eq_true_2 by done. by rewrite IH.
Qed.

Lemma splitTrim_tags (ts : list string) :
  forallb (cleanPiece comma) ts = true →
  splitTrim comma (join ", " ts) = ts.
Proof. intros H. by apply (splitTrim_join comma " "). Qed.

Lemma splitTrim_details (ds : list string) :
  forallb (cleanPiece lineFeed) ds = true →
  splitTrim lineFeed (join (String lineFeed EmptyString) ds) = ds.
Proof. intros H. by apply (splitTrim_join lineFeed EmptyString). Qed.

Lemma field_round_trip (sep : Ascii.ascii) (pad : string)
    (o : option (list string)) :
  (∀ y, trimStart (pad +:+ y) = trimStart y) → occurs sep pad = false →
  cleanField sep o = true →
  orUndefined (splitTrim sep (match o with
                              | Some l => join (String sep pad) l
                              | None => EmptyString
                              end)) = o.
Proof.
  intros Hpad Hpad' Ho. destruct o as [l|]; [|done].
  simpl in Ho. apply andb_true_iff in Ho as [Hl Hall].
  rewrite splitTrim_join by done. unfold orUndefined.
  by rewrite Hl.
Qed.

(** ** components/EditCardModal.tsx *)

Lemma handleSave_clean (m : EditCardModal.State) :
  cleanField lineFeed (details (EditCardModal.handleSave m)) = true
  ∧ cleanField comma (tags (EditCardModal.handleSave m)) = true.
Proof. split; apply orUndefined_clean. Qed.

Lemma handleSave_open (card : Card) :
  cleanField lineFeed (details card) = true →
  cleanField comma (tags card) = true →
  EditCardModal.handleSave (EditCardModal.open card) = card.
Proof.
  intros Hd Ht. destruct card as [i c q a d t p].
  unfold EditCardModal.handleSave, EditCardModal.open. simpl in *.
  f_equal.
  - by apply (field_round_trip lineFeed EmptyString).
  - by apply (field_round_trip comma " ").
Qed.

(** X15. Whatever the text fields of the form hold, the card handed to
    [onSave] has details and tags that are absent or a non-empty list of
    pieces, each of them non-empty, without white space at its ends and
    without the separator (line feed, comma); the id, the fields typed in
    the named inputs and the proficiency are those of the form. *)
Theorem saved_fields_are_clean (m : EditCardModal.State) :
  let c := EditCardModal.handleSave m in
  cleanField lineFeed (details c) = true
  ∧ cleanField comma (tags c) = true
  ∧ (∀ l, tags c = Some l →
          l ≠ [] ∧ ∀ t, t ∈ l →
                        t ≠ "" ∧ trim t = t ∧ occurs comma t = false)
  ∧ id c = id (EditCardModal.formData m)
  ∧ category c = category (EditCardModal.formData m)
  ∧ question c = question (EditCardModal.formData m)
  ∧ answer c = answer (EditCardModal.formData m)
  ∧ proficiency c = proficiency (EditCardModal.formData m).
Proof.
  intros c. destruct (handleSave_clean m) as [Hd Ht].
  split; [done|]. split; [done|]. split; [|done].
  intros l Hl. subst c. rewrite Hl in Ht. simpl in Ht.
  apply andb_true_iff in Ht as [Hlen Hall].
  apply bool_decide_eq_true in Hlen. split.
  - intros ->. simpl in Hlen. lia.
  - intros t Hin. rewrite forallb_forall in Hall.
    apply list_elem_of_In, Hall, cleanPiece_spec in Hin
      as (Hn & Htrim & Hocc).
    split; [|done]. intros ->. simpl in Hn. lia.
Qed.

(** X16. Opening a card in the form and saving it at once gives the card
    back exactly when its details and its tags are each absent or a
    non-empty list of pieces that are non-empty, without white space at
    their ends and without the separator; otherwise the card is changed
    by the round trip. What the form saved once, it gives back unchanged
    from then on. *)
Theorem open_then_save (card : Card) :
  (EditCardModal.handleSave (EditCardModal.open card) = card
   ↔ cleanField lineFeed (details card) = true
     ∧ cleanField comma (tags card) = true)
  ∧ (∀ m, card = EditCardModal.handleSave m →
          EditCardModal.handleSave (EditCardModal.open card) = card).
Proof.
  split; [split|].
  - intros <-. apply handleSave_clean.
  - intros [Hd Ht]. by apply handleSave_open.
  - intros m ->. destruct (handleSave_clean m). by apply handleSave_open.
Qed.

(** X16 at work: a card with notes and tags comes back as it is; one
    with an empty list of tags comes back without tags. *)
Lemma open_then_save_witness :
  EditCardModal.handleSave (EditCardModal.open notedCard) = notedCard
  ∧ tags (EditCardModal.handleSave
            (EditCardModal.open (sampleCard "E" (Some []) None))) = None.
Proof.
  split; [|by vm_compute].
  destruct (open_then_save notedCard) as [[_ H] _].
  apply H. by vm_compute.
Defined.

Lemma act_keeps (m : EditCardModal.State) (a : EditCardModal.Action) :
  id (EditCardModal.formData (EditCardModal.act m a))
  = id (EditCardModal.formData m)
  ∧ proficiency (EditCardModal.formData (EditCardModal.act m a))
    = proficiency (EditCardModal.formData m).
Proof.
  destruct a as [i v|v|v|tag]; try done.
  simpl. unfold EditCardModal.handleChange. simpl.
  by repeat case_bool_decide.
Qed.

Lemma acts_keep (m : EditCardModal.State) (acts : list EditCardModal.Action) :
  id (EditCardModal.formData (foldl EditCardModal.act m acts))
  = id (EditCardModal.formData m)
  ∧ proficiency (EditCardModal.formData (foldl EditCardModal.act m acts))
    = proficiency (EditCardModal.formData m).
Proof.
  revert m. induction acts as [|a acts IH]; intros m; [done|].
  simpl. destruct (IH (EditCardModal.act m a)) as [-> ->].
  apply act_keeps.
Qed.

Lemma map_update_insert (u cur : Card) (cs : list Card) (i : nat) :
  NoDup (map id cs) → cs !! i = Some cur → id u = id cur →
  map (fun c => if sameId c u then u else c) cs = <[i := u]> cs.
Proof.
  intros Hnd Hi Hid. revert i Hnd Hi.
  induction cs as [|x cs IH]; intros i Hnd Hi; [done|].
  simpl in Hnd. apply NoDup_cons in Hnd as [Hx Hnd].
  destruct i as [|i]; simpl in *.
  - inversion Hi; subst x. unfold sameId at 1.
    rewrite bool_decide_eq_true_2 by done. f_equal.
    clear IH Hi Hnd. induction cs as [|y cs IH]; [done|]. simpl.
    unfold sameId at 1. rewrite bool_decide_eq_false_2.
    + f_equal. apply IH. intros H. apply Hx. simpl.
      by apply list_elem_of_further.
    + intros Hy. apply Hx. simpl. rewrite <- Hid, <- Hy.
      apply list_elem_of_here.
  - unfold sameId at 1. rewrite bool_decide_eq_false_2.
    + f_equal. by apply IH.
    + intros Hy. apply Hx. rewrite Hy, Hid.
      apply list_elem_of_In, in_map, list_elem_of_In.
      by eapply list_elem_of_lookup_2.
Qed.

(** X17. Editing acts on one position. With distinct ids, whatever is
    typed and toggled in the form, saving puts the saved card where the
    card on display was and leaves every other card, the order and the
    cursor alone; the saved card keeps the id and the proficiency; the
    form is closed and the collection stored. Saving at once a card
    whose details and tags are clean leaves the collection as it is. *)
Theorem edit_in_place (acts : list EditCardModal.Action) (s : AppState)
    (cur : Card) (i : nat) :
  currentCard s = Some cur → cards s !! i = Some cur →
  NoDup (map id (cards s)) →
  let saved := EditCardModal.handleSave
                 (foldl EditCardModal.act (EditCardModal.open cur) acts) in
  let s' := editAndSave (fun m => foldl EditCardModal.act m acts) s in
  id saved = id cur ∧ proficiency saved = proficiency cur
  ∧ cards s' = <[i := saved]> (cards s)
  ∧ editingCard s' = None ∧ currentIndex s' = currentIndex s
  ∧ (full (localStorage s) = false →
     entry (localStorage s') = Some (Serialized (cards s')))
  ∧ (acts = [] → cleanField lineFeed (details cur) = true →
     cleanField comma (tags cur) = true → cards s' = cards s).
Proof.
  intros Hc Hi Hnd saved s'.
  destruct (acts_keep (EditCardModal.open cur) acts) as [Hid Hp].
  assert (Hs' : s' = handleUpdateCard saved (setEditingCard (Some cur) s)).
  { subst s' saved. unfold editAndSave, handleEditCard. by rewrite Hc. }
  assert (Hcards : cards s' = <[i := saved]> (cards s)).
  { rewrite Hs'. simpl. by apply (map_update_insert saved cur). }
  split; [done|]. split; [done|]. split; [done|].
  split; [by rewrite Hs'|]. split; [by rewrite Hs'|]. split.
  - intros Hfull. rewrite Hs'. by apply saveCards_entry.
  - intros -> Hd Ht. rewrite Hcards. subst saved. simpl.
    rewrite handleSave_open by done. by apply list_insert_id.
Qed.

(** X17 at work: a tag is toggled on the second of three cards. *)
Lemma edit_in_place_witness :
  let s := studying [cardA; notedCard; cardC] filter_all "" 1 in
  let s' := editAndSave
              (fun m => foldl EditCardModal.act m [EditCardModal.Toggle "t"])
              s in
  map id (cards s') = ["A"; "N"; "C"]
  ∧ map tags (cards s') = [None; Some ["hard"]; None].
Proof.
  intros s s'.
  assert (Hc : currentCard s = Some notedCard) by by vm_compute.
  assert (Hnd : NoDup (map id (cards s))).
  { apply (bool_decide_unpack _). by vm_compute. }
  destruct (edit_in_place [EditCardModal.Toggle "t"] s notedCard 1 Hc
              eq_refl Hnd) as (_ & _ & H & _).
  subst s'. rewrite H. by vm_compute.
Defined.

Lemma forallb_filter_keeps {A} (f g : A → bool) (l : list A) :
  forallb f l = true → forallb f (List.filter g l) = true.
Proof.
  rewrite !forallb_forall. intros H x [Hx _]%filter_In. by apply H.
Qed.

(** X18. A click on a quick-select tag that is not empty, has no white
    space at its ends and no comma toggles it:
    it removes the tag when it is among the tags of the text field and
    appends it otherwise, and changes the membership of no other tag;
    after the click the field reads back as exactly that list. The badge
    is shown active exactly when the tag is among the tags, so a click
    always inverts the badge; and a click that added a tag is undone by
    a second click. The rest of the form is not touched. *)
Theorem toggle_flips_tag (tag : string) (m : EditCardModal.State) :
  cleanPiece comma tag = true →
  let cur := splitTrim comma (EditCardModal.tagsText m) in
  let m' := EditCardModal.toggleTag tag m in
  let new := splitTrim comma (EditCardModal.tagsText m') in
  new = (if bool_decide (tag ∈ cur)
         then List.filter (fun t => negb (bool_decide (t = tag))) cur
         else cur ++ [tag])
  ∧ (tag ∈ new ↔ tag ∉ cur)
  ∧ (∀ t, t ≠ tag → t ∈ new ↔ t ∈ cur)
  ∧ EditCardModal.isActive tag m = bool_decide (tag ∈ cur)
  ∧ EditCardModal.isActive tag m' = negb (EditCardModal.isActive tag m)
  ∧ EditCardModal.formData m' = EditCardModal.formData m
  ∧ EditCardModal.detailsText m' = EditCardModal.detailsText m
  ∧ (tag ∉ cur →
     splitTrim comma (EditCardModal.tagsText (EditCardModal.toggleTag tag m'))
     = cur).
Proof.
  intros Htag cur m' new.
  assert (Htog : ∀ m0,
            splitTrim comma
              (EditCardModal.tagsText (EditCardModal.toggleTag tag m0))
            = (if bool_decide
                    (tag ∈ splitTrim comma (EditCardModal.tagsText m0))
               then List.filter (fun t => negb (bool_decide (t = tag)))
                      (splitTrim comma (EditCardModal.tagsText m0))
               else splitTrim comma (EditCardModal.tagsText m0) ++ [tag])).
  { intros m0. unfold EditCardModal.toggleTag. simpl.
    pose proof (splitTrim_pieces comma (EditCardModal.tagsText m0)) as H0.
    apply splitTrim_tags. case_bool_decide.
    - by apply forallb_filter_keeps.
    - rewrite forallb_app, H0. simpl. by rewrite Htag. }
  assert (Hnew : new = (if bool_decide (tag ∈ cur)
                        then List.filter
                               (fun t => negb (bool_decide (t = tag))) cur
                        else cur ++ [tag])) by apply Htog.
  assert (Hact : ∀ m0, EditCardModal.isActive tag m0
                 = bool_decide
                     (tag ∈ splitTrim comma (EditCardModal.tagsText m0))).
  { intros m0. unfold EditCardModal.isActive, splitTrim.
    apply bool_decide_ext. rewrite elem_of_filter_bool.
    rewrite bool_decide_eq_true.
    apply cleanPiece_spec in Htag as (? & _). tauto. }
  assert (Hmem : tag ∈ new ↔ tag ∉ cur).
  { rewrite Hnew. case_bool_decide as Hin.
    - rewrite elem_of_filter_bool, negb_true_iff, bool_decide_eq_false.
      tauto.
    - rewrite elem_of_app, list_elem_of_singleton. tauto. }
  split; [done|]. split; [done|]. split.
  { intros t Ht. rewrite Hnew. case_bool_decide as Hin.
    - rewrite elem_of_filter_bool, negb_true_iff, bool_decide_eq_false.
      tauto.
    - rewrite elem_of_app, list_elem_of_singleton. tauto. }
  split; [apply Hact|]. split.
  { rewrite !Hact. fold cur new. apply eq_true_iff_eq.
    rewrite negb_true_iff, bool_decide_eq_true, bool_decide_eq_false.
    done. }
  split; [done|]. split; [done|].
  intros Hno. rewrite (Htog m'). fold new.
  apply Hmem in Hno as Hyes.
  rewrite (bool_decide_eq_true_2 _ Hyes).
  rewrite Hnew, (bool_decide_eq_false_2 _ Hno).
  rewrite List.filter_app. simpl.
  rewrite (bool_decide_eq_true_2 (tag = tag)) by done. simpl.
  rewrite app_nil_r. clear -Hno.
  induction cur as [|x l IH]; [done|]. simpl.
  rewrite bool_decide_eq_false_2.
  - simpl. f_equal. apply IH. intros H. apply Hno.
    by apply list_elem_of_further.
  - intros ->. apply Hno. apply list_elem_of_here.
Qed.

(** X18 at work: the tag of a card is toggled off. *)
Lemma toggle_flips_tag_witness :
  EditCardModal.isActive "t" (EditCardModal.open notedCard) = true
  ∧ EditCardModal.isActive "t"
      (EditCardModal.toggleTag "t" (EditCardModal.open notedCard)) = false.
Proof.
  assert (Hc : cleanPiece comma "t" = true) by by vm_compute.
  destruct (toggle_flips_tag "t" (EditCardModal.open notedCard) Hc)
    as (_ & _ & _ & _ & H & _).
  split; [by vm_compute|]. rewrite H. by vm_compute.
Defined.

(** ** components/Editor.tsx with App.tsx: an import that is accepted *)

Section Accepted.

Variable JSON_parse : string → Exn + value.
Variable fresh : nat → string.






End Accepted.



